(* ===================================================================== *)
(* The render-progress simulator and the scene drag-reorder of the       *)
(* VideoCreator component (frontend/src/components/AnimatedAvatar.jsx),  *)
(* embedded as executable definitions over an explicit component state.  *)
(*                                                                       *)
(* Modelling conventions                                                 *)
(*  - React state cells (progress, stage, loading, ...) and refs         *)
(*    (progressTimerRef, renderStartRef) are fields of one record; a     *)
(*    setter call is an assignment of the field.                         *)
(*  - setTimeout / clearTimeout act on a finite map of pending timers,   *)
(*    keyed by the (positive) timer handle.  A timer callback is a       *)
(*    closure; closures are represented by data: which function, and     *)
(*    the values it captured.  The variable stageIdx, which all closures *)
(*    of one startProgressAnimation activation share and mutate, lives   *)
(*    in a store indexed by activation.                                  *)
(*  - Date.now() reads a clock that the environment only moves forward.  *)
(*  - JavaScript numbers are computed with exact rationals (Q):          *)
(*    elapsed / current.ms, Math.min and Math.round are the exact        *)
(*    operations, not their IEEE-754 double roundings.                   *)
(*  - Reading a property of undefined throws; functions live in a state  *)
(*    and exception monad.                                               *)
(* ===================================================================== *)

From stdpp Require Import gmap strings list fin_maps numbers functions sorting pretty.
From Stdlib Require Import QArith Qround Qminmax Ascii.

Local Open Scope Z_scope.

(* --------------------------------------------------------------------- *)
(* Data model                                                            *)
(* --------------------------------------------------------------------- *)

(* One entry of STAGES: { pct, label, ms }.  Durations are positive
   integer literals in the source. *)
Record StageEntry := mkStage { pct : Z; label : string; ms : positive }.

(* A scene object as created by add(). *)
Record Scene := mkScene {
  id : string; text : string; background_path : string;
  duration : Z; voice_id : string; image_prompt : string }.

(* The object passed to setVideoUrl. *)
Record VideoUrl := mkVideoUrl {
  download : option string; preview : string; filename : string }.

(* Timer callbacks: the two closures created by startProgressAnimation.
   [r] names the activation whose stageIdx the closure captured;
   interpolate also captured current, next (possibly undefined) and
   stageStart. *)
Inductive callback :=
| Tick (r : nat)
| Interpolate (r : nat) (current next : option StageEntry) (stageStart : Z).

Record State := mkState {
  (* React state *)
  progress : Z;
  stage : string;
  loading : bool;
  rendering : bool;
  status : string;
  videoUrl : option VideoUrl;
  scenes : list (option Scene);          (* an element is a scene or undefined *)
  draggedIdx : option nat;
  (* refs *)
  progressTimerRef : option positive;
  renderStartRef : option Z;
  (* runtime *)
  now : Z;                              (* value of Date.now() *)
  timers : gmap positive (callback * Z); (* pending timeouts: callback, due time *)
  nextTimer : positive;                 (* next handle setTimeout returns *)
  stageIdx : nat → nat;                 (* the let-variable of each activation *)
  nextRun : nat;                        (* next activation of startProgressAnimation *)
  awaiting : nat                        (* render() calls suspended at await *)
}.

Definition with_progress (v : Z) (s : State) : State :=
  mkState v (stage s) (loading s) (rendering s) (status s) (videoUrl s)
    (scenes s) (draggedIdx s) (progressTimerRef s) (renderStartRef s)
    (now s) (timers s) (nextTimer s) (stageIdx s) (nextRun s) (awaiting s).
Definition with_stage (v : string) (s : State) : State :=
  mkState (progress s) v (loading s) (rendering s) (status s) (videoUrl s)
    (scenes s) (draggedIdx s) (progressTimerRef s) (renderStartRef s)
    (now s) (timers s) (nextTimer s) (stageIdx s) (nextRun s) (awaiting s).
Definition with_loading (v : bool) (s : State) : State :=
  mkState (progress s) (stage s) v (rendering s) (status s) (videoUrl s)
    (scenes s) (draggedIdx s) (progressTimerRef s) (renderStartRef s)
    (now s) (timers s) (nextTimer s) (stageIdx s) (nextRun s) (awaiting s).
Definition with_rendering (v : bool) (s : State) : State :=
  mkState (progress s) (stage s) (loading s) v (status s) (videoUrl s)
    (scenes s) (draggedIdx s) (progressTimerRef s) (renderStartRef s)
    (now s) (timers s) (nextTimer s) (stageIdx s) (nextRun s) (awaiting s).
Definition with_status (v : string) (s : State) : State :=
  mkState (progress s) (stage s) (loading s) (rendering s) v (videoUrl s)
    (scenes s) (draggedIdx s) (progressTimerRef s) (renderStartRef s)
    (now s) (timers s) (nextTimer s) (stageIdx s) (nextRun s) (awaiting s).
Definition with_videoUrl (v : option VideoUrl) (s : State) : State :=
  mkState (progress s) (stage s) (loading s) (rendering s) (status s) v
    (scenes s) (draggedIdx s) (progressTimerRef s) (renderStartRef s)
    (now s) (timers s) (nextTimer s) (stageIdx s) (nextRun s) (awaiting s).
Definition with_scenes (v : list (option Scene)) (s : State) : State :=
  mkState (progress s) (stage s) (loading s) (rendering s) (status s) (videoUrl s)
    v (draggedIdx s) (progressTimerRef s) (renderStartRef s)
    (now s) (timers s) (nextTimer s) (stageIdx s) (nextRun s) (awaiting s).
Definition with_draggedIdx (v : option nat) (s : State) : State :=
  mkState (progress s) (stage s) (loading s) (rendering s) (status s) (videoUrl s)
    (scenes s) v (progressTimerRef s) (renderStartRef s)
    (now s) (timers s) (nextTimer s) (stageIdx s) (nextRun s) (awaiting s).
Definition with_progressTimerRef (v : option positive) (s : State) : State :=
  mkState (progress s) (stage s) (loading s) (rendering s) (status s) (videoUrl s)
    (scenes s) (draggedIdx s) v (renderStartRef s)
    (now s) (timers s) (nextTimer s) (stageIdx s) (nextRun s) (awaiting s).
Definition with_renderStartRef (v : option Z) (s : State) : State :=
  mkState (progress s) (stage s) (loading s) (rendering s) (status s) (videoUrl s)
    (scenes s) (draggedIdx s) (progressTimerRef s) v
    (now s) (timers s) (nextTimer s) (stageIdx s) (nextRun s) (awaiting s).
Definition with_now (v : Z) (s : State) : State :=
  mkState (progress s) (stage s) (loading s) (rendering s) (status s) (videoUrl s)
    (scenes s) (draggedIdx s) (progressTimerRef s) (renderStartRef s)
    v (timers s) (nextTimer s) (stageIdx s) (nextRun s) (awaiting s).
Definition with_timers (v : gmap positive (callback * Z)) (s : State) : State :=
  mkState (progress s) (stage s) (loading s) (rendering s) (status s) (videoUrl s)
    (scenes s) (draggedIdx s) (progressTimerRef s) (renderStartRef s)
    (now s) v (nextTimer s) (stageIdx s) (nextRun s) (awaiting s).
Definition with_nextTimer (v : positive) (s : State) : State :=
  mkState (progress s) (stage s) (loading s) (rendering s) (status s) (videoUrl s)
    (scenes s) (draggedIdx s) (progressTimerRef s) (renderStartRef s)
    (now s) (timers s) v (stageIdx s) (nextRun s) (awaiting s).
Definition with_stageIdx (v : nat → nat) (s : State) : State :=
  mkState (progress s) (stage s) (loading s) (rendering s) (status s) (videoUrl s)
    (scenes s) (draggedIdx s) (progressTimerRef s) (renderStartRef s)
    (now s) (timers s) (nextTimer s) v (nextRun s) (awaiting s).
Definition with_nextRun (v : nat) (s : State) : State :=
  mkState (progress s) (stage s) (loading s) (rendering s) (status s) (videoUrl s)
    (scenes s) (draggedIdx s) (progressTimerRef s) (renderStartRef s)
    (now s) (timers s) (nextTimer s) (stageIdx s) v (awaiting s).
Definition with_awaiting (v : nat) (s : State) : State :=
  mkState (progress s) (stage s) (loading s) (rendering s) (status s) (videoUrl s)
    (scenes s) (draggedIdx s) (progressTimerRef s) (renderStartRef s)
    (now s) (timers s) (nextTimer s) (stageIdx s) (nextRun s) v.

(* The component as first mounted: useState / useRef initial values. *)
Definition initial : State :=
  mkState 0 "" false false "" None [] None None None
          0 ∅ 1%positive (λ _, 0%nat) 0%nat 0%nat.

(* --------------------------------------------------------------------- *)
(* State and exception monad                                             *)
(* --------------------------------------------------------------------- *)

Inductive outcome (A : Type) :=
| Return (a : A) (s : State)
| Throw (e : string) (s : State).
Arguments Return {A} a s.
Arguments Throw {A} e s.

Definition M (A : Type) : Type := State → outcome A.

Definition ret {A} (a : A) : M A := λ s, Return a s.
Definition bind {A B} (m : M A) (k : A → M B) : M B :=
  λ s, match m s with
       | Return a s' => k a s'
       | Throw e s' => Throw e s'
       end.
Definition throw {A} (e : string) : M A := λ s, Throw e s.
Definition get : M State := λ s, Return s s.
Definition modify (f : State → State) : M unit := λ s, Return tt (f s).

Declare Scope js_scope.
Delimit Scope js_scope with js.
Notation "'let!' x := m 'in' k" := (bind m (λ x, k))
  (at level 10, x name, m at level 100, k at level 200) : js_scope.
Notation "m ;; k" := (bind m (λ _, k))
  (at level 100, k at level 200, right associativity) : js_scope.
Local Open Scope js_scope.

(* obj.field where obj may be undefined *)
Definition prop {A} (o : option A) : M A :=
  match o with
  | Some a => ret a
  | None => throw "TypeError: Cannot read properties of undefined"
  end.

(* --------------------------------------------------------------------- *)
(* Runtime primitives                                                    *)
(* --------------------------------------------------------------------- *)

Definition Date_now : M Z := λ s, Return (now s) s.

Definition setTimeout (cb : callback) (delay : Z) : M positive :=
  λ s, let h := nextTimer s in
       Return h (with_nextTimer (Pos.succ h)
                  (with_timers (<[h := (cb, now s + delay)]> (timers s)) s)).

Definition clearTimeout (h : positive) : M unit :=
  modify (λ s, with_timers (delete h (timers s)) s).

Definition setProgress (v : Z) : M unit := modify (with_progress v).
Definition setStage (v : string) : M unit := modify (with_stage v).
Definition setLoading (v : bool) : M unit := modify (with_loading v).
Definition setRendering (v : bool) : M unit := modify (with_rendering v).
Definition setStatus (v : string) : M unit := modify (with_status v).
Definition setVideoUrl (v : option VideoUrl) : M unit := modify (with_videoUrl v).
Definition setScenes (v : list (option Scene)) : M unit := modify (with_scenes v).
Definition setDraggedIdx (v : option nat) : M unit := modify (with_draggedIdx v).

Definition Math_min (x y : Q) : Q := Qmin x y.
(* Math.round: nearest integer, ties towards +infinity. *)
Definition Math_round (x : Q) : Z := Qfloor (x + (1 # 2))%Q.

(* --------------------------------------------------------------------- *)
(* The progress driver                                                   *)
(* --------------------------------------------------------------------- *)

Section Driver.

(* The table the closures read; the program's own table is [STAGES]
   below. *)
Variable STAGES : list StageEntry.

Definition set_stageIdx (r i : nat) : M unit :=
  modify (λ s, with_stageIdx (<[r := i]> (stageIdx s)) s).
Definition get_stageIdx (r : nat) : M nat := λ s, Return (stageIdx s r) s.
Definition set_progressTimerRef (h : positive) : M unit :=
  modify (with_progressTimerRef (Some h)).

(* const interpolate = () => { ... } inside tick *)
Definition interpolate (r : nat) (current next : option StageEntry)
    (stageStart : Z) : M unit :=
  let! t := Date_now in
  let elapsed := t - stageStart in
  let! c := prop current in
  let frac := Math_min (inject_Z elapsed / inject_Z (Z.pos (ms c))) 1 in
  let! n := prop next in
  let pct := (inject_Z (pct c) + (inject_Z (pct n) - inject_Z (pct c)) * frac)%Q in
  setProgress (Math_round pct) ;;
  if Qlt_le_dec frac 1 then
    let! h := setTimeout (Interpolate r current next stageStart) 80 in
    set_progressTimerRef h
  else
    let! i := get_stageIdx r in
    set_stageIdx r (S i) ;;
    if (Z.of_nat (S i) <? Z.of_nat (length STAGES)) then
      let! e := prop (STAGES !! S i) in
      setStage (label e) ;;
      let! h := setTimeout (Tick r) 100 in
      set_progressTimerRef h
    else ret tt.

(* const tick = () => { ... } *)
Definition tick (r : nat) : M unit :=
  let! i := get_stageIdx r in
  if (Z.of_nat (length STAGES) - 1 <=? Z.of_nat i) then ret tt
  else
    let current := STAGES !! i in
    let next := STAGES !! S i in
    let! stageStart := Date_now in
    interpolate r current next stageStart.

Definition startProgressAnimation : M unit :=
  let! t := Date_now in
  modify (with_renderStartRef (Some t)) ;;
  (* let stageIdx = 0: a fresh variable for this activation *)
  let! s := get in
  let r := nextRun s in
  modify (with_nextRun (S r)) ;;
  set_stageIdx r 0 ;;
  setProgress 0 ;;
  let! e := prop (STAGES !! 0%nat) in
  setStage (label e) ;;
  let! h := setTimeout (Tick r) 200 in
  set_progressTimerRef h.

Definition stopProgress (success : bool) : M unit :=
  let! s := get in
  match progressTimerRef s with
  | Some h => clearTimeout h
  | None => ret tt
  end ;;
  if success then
    setProgress 100 ;; setStage "Complete! ✅"
  else
    setProgress 0 ;; setStage "".

Definition run_callback (cb : callback) : M unit :=
  match cb with
  | Tick r => tick r
  | Interpolate r current next stageStart =>
      interpolate r current next stageStart
  end.

End Driver.

(* const STAGES = [ ... ] *)
Definition STAGES : list StageEntry :=
  [ mkStage 5  "Initializing..."           800;
    mkStage 12 "Generating audio (TTS)..." 3000;
    mkStage 20 "Running Wav2Lip..."        8000;
    mkStage 38 "Animating avatar..."       8000;
    mkStage 50 "Loading alpha mask..."     2000;
    mkStage 62 "Compositing frames..."     5000;
    mkStage 75 "Encoding video..."         7000;
    mkStage 88 "Encoding audio..."         4000;
    mkStage 96 "Finalizing..."             3000 ].

(* --------------------------------------------------------------------- *)
(* render(): the caller of the driver                                    *)
(* --------------------------------------------------------------------- *)

(* What the awaited fetch(...) / res.json() of render() delivers. *)
Inductive response :=
| Data (filename download_url error : option string)  (* data = await res.json() *)
| Rejected (message : string).                        (* the awaits throw err *)

(* JavaScript truthiness of a string-or-undefined value. *)
Definition truthy (v : option string) : bool :=
  match v with
  | Some x => negb (String.eqb x "")
  | None => false
  end.

Section Render.

Variable STAGES : list StageEntry.
Variable API : string.

(* render() up to its first await. *)
Definition render_begin : M unit :=
  let! s := get in
  if (length (scenes s) =? 0)%nat then setStatus "❌ Add scenes first"
  else
    setLoading true ;;
    setRendering true ;;
    setVideoUrl None ;;
    setStatus "🎬 Rendering..." ;;
    startProgressAnimation STAGES ;;
    modify (λ s, with_awaiting (S (awaiting s)) s).

(* render() from the await on: try body, catch, finally. *)
Definition render_settle (o : response) : M unit :=
  match o with
  | Data filename download_url error =>
      stopProgress (truthy filename) ;;
      if truthy filename then
        setVideoUrl (Some (mkVideoUrl download_url
                             (API +:+ "/api/video/" +:+ default "" filename)
                             (default "" filename))) ;;
        setStatus "✅ Video ready!"
      else
        setStatus ("❌ Failed: " +:+ (if truthy error then default "" error else "Unknown"))
  | Rejected message =>
      stopProgress false ;;
      setStatus ("❌ Error: " +:+ message)
  end ;;
  setLoading false ;;
  setRendering false.

End Render.

(* --------------------------------------------------------------------- *)
(* Scene drag-reorder                                                    *)
(* --------------------------------------------------------------------- *)

(* Array.prototype.splice(start, deleteCount, ...items) for non-negative
   integer arguments: start is clamped to the length, and no more
   elements are deleted than there are. *)
Definition splice {A} (start deleteCount : nat) (items : list A) (l : list A) : list A :=
  take start l ++ items ++ drop (start + deleteCount) l.

(* The array update of dragOver.  [undefined] is what upd[draggedIdx]
   reads when the index is out of range. *)
Definition reorder {A} (undefined : A) (dragged_idx idx : nat) (arr : list A) : list A :=
  let upd := arr in
  let dragged := nth dragged_idx upd undefined in
  let upd := splice dragged_idx 1 [] upd in
  splice idx 0 [dragged] upd.

Definition dragStart (idx : nat) : M unit := setDraggedIdx (Some idx).

Definition dragOver (idx : nat) : M unit :=
  let! s := get in
  match draggedIdx s with
  | None => ret tt
  | Some d =>
      if (d =? idx)%nat then ret tt
      else
        let upd := reorder None d idx (scenes s) in
        setDraggedIdx (Some idx) ;;
        setScenes upd
  end.

Definition dragEnd : M unit := setDraggedIdx None.

(* --------------------------------------------------------------------- *)
(* The event loop                                                        *)
(* --------------------------------------------------------------------- *)

Inductive action :=
| CallStart                   (* startProgressAnimation() *)
| CallStop (success : bool)   (* stopProgress(success) *)
| Fire (h : positive)         (* timeout h expires; its callback runs *)
| ClickRender                 (* click on the Render button *)
| Settle (o : response).      (* the awaited request of a render() completes *)

(* An event is an action together with the clock reading when it runs. *)
Definition event : Type := Z * action.

Section Loop.

Variable STAGES : list StageEntry.
Variable API : string.

(* One turn of the event loop.  None: the event cannot happen in this
   state (the clock would go back, the timer is not pending or not yet
   due, no render() is suspended). *)
Definition step (ev : event) (s : State) : option (outcome unit) :=
  let '(t, a) := ev in
  if negb (now s <=? t) then None
  else
    let s := with_now t s in
    match a with
    | CallStart => Some (startProgressAnimation STAGES s)
    | CallStop success => Some (stopProgress success s)
    | Fire h =>
        match timers s !! h with
        | Some (cb, due) =>
            if due <=? t
            then Some (run_callback STAGES cb (with_timers (delete h (timers s)) s))
            else None
        | None => None
        end
    | ClickRender =>
        (* <button onClick={render} disabled={loading}> *)
        if loading s then Some (Return tt s)
        else Some (render_begin STAGES s)
    | Settle o =>
        match awaiting s with
        | O => None
        | S k => Some (render_settle API o (with_awaiting k s))
        end
    end.

(* Run a sequence of events, each of which must be able to happen and
   return normally; the result lists the state after each event. *)
Fixpoint run (evs : list event) (s : State) : option (list State) :=
  match evs with
  | [] => Some []
  | ev :: evs' =>
      match step ev s with
      | Some (Return _ s') => (s' ::.) <$> run evs' s'
      | _ => None
      end
  end.

(* The pending timer that is due first (the lower handle on a tie). *)
Definition earlier (a b : positive * Z) : bool :=
  (a.2 <? b.2) || ((a.2 =? b.2) && (a.1 <? b.1)%positive).
Definition next_due (s : State) : option (positive * Z) :=
  foldr (λ '(h, (_, due)) acc,
           match acc with
           | Some b => if earlier (h, due) b then Some (h, due) else Some b
           | None => Some (h, due)
           end)
        None (map_to_list (timers s)).

(* A browser without lag: every timer fires exactly when it is due.
   [advance n T s] lets the clock run up to T, firing at most n timers. *)
Fixpoint advance (n : nat) (T : Z) (s : State) : option State :=
  match next_due s with
  | None => Some (with_now T s)
  | Some (h, due) =>
      if T <? due then Some (with_now T s)
      else match n with
           | O => None
           | S n' =>
               match step (Z.max due (now s), Fire h) s with
               | Some (Return _ s') => advance n' T s'
               | _ => None
               end
           end
  end.

End Loop.

Definition fires (l : list (Z * positive)) : list event :=
  map (λ '(t, h), (t, Fire h)) l.

(* --------------------------------------------------------------------- *)
(* Notions used to state the properties                                  *)
(* --------------------------------------------------------------------- *)

(* The value interpolate displays when [elapsed] ms of the stage that
   starts at [c] and leads to [n] have passed. *)
Definition interp (c n : StageEntry) (elapsed : Z) : Z :=
  Math_round (inject_Z (pct c) + (inject_Z (pct n) - inject_Z (pct c))
              * Math_min (inject_Z elapsed / inject_Z (Z.pos (ms c))) 1)%Q.
Arguments interp : simpl never.

(* setTimeout(cb, delay) followed by progressTimerRef.current = handle *)
Definition schedule (cb : callback) (delay : Z) (s : State) : State :=
  with_progressTimerRef (Some (nextTimer s))
    (with_nextTimer (Pos.succ (nextTimer s))
       (with_timers (<[nextTimer s := (cb, now s + delay)]> (timers s)) s)).

(* Thresholds strictly increasing along the table. *)
Definition increasing (T : list StageEntry) : Prop := Sorted Z.lt (pct <$> T).

Definition nondecreasing (l : list Z) : Prop :=
  ∀ i j x y, (i ≤ j)%nat → l !! i = Some x → l !! j = Some y → x <= y.

(* The state left by an outcome, normal or not. *)
Definition state_of {A} (o : outcome A) : State :=
  match o with Return _ s => s | Throw _ s => s end.

(* Every pending timer is the one progressTimerRef points to. *)
Definition tracked (s : State) : Prop :=
  map_Forall (λ h _, progressTimerRef s = Some h) (timers s).

(* Handles of pending timers were handed out before nextTimer. *)
Definition fresh_handles (s : State) : Prop :=
  map_Forall (λ h _, (h < nextTimer s)%positive) (timers s).

(* What a statement sequence of the driver may do to the timer table:
   nothing, or one setTimeout whose handle goes to progressTimerRef.
   The clock and the flags of render() are out of its reach. *)
Definition timer_effect (s s' : State) : Prop :=
  loading s' = loading s ∧ awaiting s' = awaiting s ∧ now s' = now s
  ∧ ((timers s' = timers s ∧ nextTimer s' = nextTimer s
      ∧ progressTimerRef s' = progressTimerRef s)
     ∨ (∃ cb d, timers s' = <[nextTimer s := (cb, d)]> (timers s)
                ∧ nextTimer s' = Pos.succ (nextTimer s)
                ∧ progressTimerRef s' = Some (nextTimer s))).

(* The states one activation [r] of startProgressAnimation goes through
   when no other activation has timers pending.  The flag is true until
   the first timer of the activation has fired. *)
Inductive phase (T : list StageEntry) (r : nat) : bool → State → Prop :=
| Started s h due e :
    timers s = {[h := (Tick r, due)]} → progressTimerRef s = Some h →
    stageIdx s r = 0%nat → T !! 0%nat = Some e →
    progress s = 0 → stage s = label e →
    phase T r true s
| Waiting s h due e :
    timers s = {[h := (Tick r, due)]} → progressTimerRef s = Some h →
    stageIdx s r ≠ 0%nat → T !! stageIdx s r = Some e →
    progress s = pct e → stage s = label e →
    phase T r false s
| Moving s h due c n st tl :
    timers s = {[h := (Interpolate r (Some c) (Some n) st, due)]} →
    progressTimerRef s = Some h →
    T !! stageIdx s r = Some c → T !! S (stageIdx s r) = Some n →
    st <= tl <= now s → tl - st < Z.pos (ms c) → due = tl + 80 →
    progress s = interp c n (tl - st) → stage s = label c →
    phase T r false s
| Finished s e :
    timers s = ∅ →
    T !! stageIdx s r = Some e → S (stageIdx s r) = length T →
    progress s = (if stageIdx s r is O then 0 else pct e) → stage s = label e →
    phase T r false s.

(* An upper bound on the number of timer callbacks a run still has to
   make when it waits for its tick at the head of [l]: the tick itself,
   then one interpolation every 80 ms at least until the stage's ms are
   over, then the rest of the table; on the last entry the tick returns
   at once. *)
Fixpoint fires_needed (l : list StageEntry) : nat :=
  match l with
  | [] => 0
  | e :: l' =>
      match l' with
      | [] => 1
      | _ => S (Z.to_nat ((Z.pos (ms e) + 79) / 80) + fires_needed l')
      end
  end.

(* The same bound, read off the pending timer of activation [r]. *)
Definition potential (T : list StageEntry) (r : nat) (s : State) : nat :=
  match map_to_list (timers s) with
  | [(_, (Tick _, _))] => fires_needed (drop (stageIdx s r) T)
  | [(_, (Interpolate _ (Some c) _ st, due))] =>
      (Z.to_nat ((Z.pos (ms c) - (due - 80 - st) + 79) / 80)
       + fires_needed (drop (S (stageIdx s r)) T))%nat
  | _ => 0%nat
  end.

(* The table of the spec's worked example. *)
Definition two_stage : list StageEntry :=
  [ mkStage 10 "A" 1000; mkStage 100 "B" 1000 ].


(* The state right after startProgressAnimation() on the freshly mounted
   component. *)
Definition started (T : list StageEntry) : State :=
  state_of (startProgressAnimation T initial).

(* What the worked example displays t ms after start() when no timer
   is late: nothing moves for 200 ms, then every 80 ms the value
   interpolated from the pct of "A" to the pct of "B" over the ms of "A". *)
Definition worked_example (t : Z) : Z * string :=
  let A := mkStage 10 "A" 1000 in
  let B := mkStage 100 "B" 1000 in
  if t <? 200 then (0, "A")
  else
    let elapsed := 80 * ((t - 200) / 80) in
    if elapsed <? 1000 then (interp A B elapsed, "A") else (100, "B").

(* The table invariant as the specification words it: non-empty,
   thresholds strictly increasing, the first above 0, the last 100. *)
Definition table_invariant (T : list StageEntry) : Prop :=
  T ≠ [] ∧ increasing T
  ∧ (∃ e, head T = Some e ∧ 0 < pct e)
  ∧ (∃ e, last T = Some e ∧ pct e = 100).

(* Does the response make render() take a failure path? *)
Definition failed (o : response) : bool :=
  match o with
  | Data filename _ _ => negb (truthy filename)
  | Rejected _ => true
  end.

(* The events the rendered page can produce: timers, clicks on the
   Render button, responses to a pending render(). *)
Definition ui_action (a : action) : bool :=
  match a with
  | Fire _ | ClickRender | Settle _ => true
  | CallStart | CallStop _ => false
  end.

Definition ui_inv (s : State) : Prop :=
  tracked s ∧ (size (timers s) ≤ 1)%nat ∧ (awaiting s ≤ 1)%nat
  ∧ (loading s = false → timers s = ∅ ∧ awaiting s = 0%nat).

(* startProgressAnimation() called again 100 ms into a run, and the
   three timers that fire next. *)
Definition double_start : list event :=
  [(0, CallStart); (100, CallStart); (200, Fire 1%positive);
   (280, Fire 3%positive); (300, Fire 2%positive)].

(* A run of the program's table with late timers. *)
Definition late_ticks : list (Z * positive) :=
  [(200, 1%positive); (290, 2%positive); (400, 3%positive);
   (1100, 4%positive); (1207, 5%positive); (1300, 6%positive)].
Definition late_states : list State :=
  default [] (run STAGES "" (fires late_ticks) (started STAGES)).

(* Three scenes, the first one being dragged. *)
Definition three_scenes : list (option Scene) :=
  [ Some (mkScene "scene_1" "Intro" "" 5 "" "");
    Some (mkScene "scene_2" "Body" "" 5 "" "");
    Some (mkScene "scene_3" "Outro" "" 5 "" "") ].
Definition dragging_first : State :=
  with_draggedIdx (Some 0%nat) (with_scenes three_scenes initial).

(* --------------------------------------------------------------------- *)
(* The earlier VideoCreator (setInterval every 3000 ms)                  *)
(* --------------------------------------------------------------------- *)

Module Legacy.

(* One entry of stgs: { progress, stage }. *)
Record Stg := mkStg { stg_progress : Z; stg_stage : string }.

(* const stgs = [ ... ] *)
Definition stgs : list Stg :=
  [ mkStg 10 "Processing scenes...";
    mkStg 25 "Generating audio...";
    mkStg 40 "Processing images...";
    mkStg 60 "Compositing video...";
    mkStg 80 "Encoding video...";
    mkStg 95 "Finalizing..." ].

(* The cells the interval callback touches: progress, stage and the
   let-variable i of render(). *)
Record Bar := mkBar { bar_progress : Z; bar_stage : string; i : nat }.

(* setProgress(0); setStage('Initializing...'); let i = 0 *)
Definition render_begin : Bar := mkBar 0 "Initializing..." 0.

(* The callback given to setInterval. *)
Definition on_interval (T : list Stg) (b : Bar) : Bar :=
  if (i b <? length T)%nat then
    match T !! i b with
    | Some e => mkBar (stg_progress e) (stg_stage e) (S (i b))
    | None => b
    end
  else b.

(* The bar after each of the first n intervals. *)
Fixpoint intervals (T : list Stg) (n : nat) (b : Bar) : list Bar :=
  match n with
  | O => []
  | S n' => let b' := on_interval T b in b' :: intervals T n' b'
  end.

End Legacy.

(* ===================================================================== *)
(* The rest of the page: bar colour and stage dots, scene editing, the   *)
(* summary panel, the time display, the voice loader                     *)
(* ===================================================================== *)

(* const progressColor = () => { ... }: the gradient of the bar *)
Definition progressColor (s : State) : string :=
  if progress s =? 100 then "from-green-500 to-emerald-400"
  else if 60 <? progress s then "from-blue-500 to-purple-500"
  else if 30 <? progress s then "from-purple-500 to-pink-500"
  else "from-orange-500 to-yellow-500".

(* The cells a timer callback has no business with. *)
Definition same_page (s s' : State) : Prop :=
  loading s' = loading s ∧ rendering s' = rendering s
  ∧ status s' = status s ∧ videoUrl s' = videoUrl s
  ∧ scenes s' = scenes s ∧ draggedIdx s' = draggedIdx s
  ∧ renderStartRef s' = renderStartRef s
  ∧ awaiting s' = awaiting s ∧ nextRun s' = nextRun s.


(* What the bar, setVideoUrl and the status line show when render() ends. *)
Definition render_result (API : string) (o : response) : Z * string * option VideoUrl * string :=
  match o with
  | Data filename download_url error =>
      if truthy filename then
        (100, "Complete! ✅",
         Some (mkVideoUrl download_url (API +:+ "/api/video/" +:+ default "" filename)
                 (default "" filename)),
         "✅ Video ready!")
      else
        (0, "", None,
         "❌ Failed: " +:+ (if truthy error then default "" error else "Unknown"))
  | Rejected message => (0, "", None, "❌ Error: " +:+ message)
  end.



(* The row of stage dots under the bar:
   const thresholds = [12, 38, 50, 62, 85, 100] *)
Definition thresholds : list Z := [12; 38; 50; 62; 85; 100].

(* x || 0 where x is a number or undefined *)
Definition or_zero (x : option Z) : Z :=
  match x with
  | Some v => if v =? 0 then 0 else v
  | None => 0
  end.

(* done = progress >= thresholds[idx]; a comparison with undefined is false *)
Definition dot_done (s : State) (idx : nat) : bool :=
  match thresholds !! idx with
  | Some t => t <=? progress s
  | None => false
  end.

(* active = progress >= (thresholds[idx - 1] || 0) && progress < thresholds[idx] *)
Definition dot_active (s : State) (idx : nat) : bool :=
  (or_zero (match idx with O => None | S j => thresholds !! j end) <=? progress s)
  && match thresholds !! idx with
     | Some t => progress s <? t
     | None => false
     end.

(* done ? 'bg-green-400' : active ? 'bg-yellow-400 animate-pulse' : 'bg-slate-500' *)
Definition dot (s : State) (idx : nat) : string :=
  if dot_done s idx then "bg-green-400"
  else if dot_active s idx then "bg-yellow-400 animate-pulse"
  else "bg-slate-500".

(* The dots a row should show when dot k is the one in progress. *)
Definition dots_upto (k idx : nat) : string :=
  if (idx <? k)%nat then "bg-green-400"
  else if (idx =? k)%nat then "bg-yellow-400 animate-pulse"
  else "bg-slate-500".



(* --------------------------------------------------------------------- *)
(* Scene list editing                                                    *)
(* --------------------------------------------------------------------- *)

(* `scene_${scenes.length + 1}` *)
Definition scene_id (n : nat) : string := "scene_" +:+ pretty n.

(* { ...sc, id: v } *)
Definition with_id (v : string) (sc : Scene) : Scene :=
  mkScene v (text sc) (background_path sc) (duration sc) (voice_id sc) (image_prompt sc).

(* Array.prototype.filter; the callback is given the element and its
   index, counted from i. *)
Fixpoint filter_from {A} (f : A → nat → bool) (i : nat) (l : list A) : list A :=
  match l with
  | [] => []
  | x :: l' => if f x i then x :: filter_from f (S i) l' else filter_from f (S i) l'
  end.

Definition del (idx : nat) : M unit :=
  let! s := get in
  setScenes (filter_from (λ _ i, negb (i =? idx)%nat) 0 (scenes s)) ;;
  setStatus ("🗑️ Scene " +:+ pretty (idx + 1)%nat +:+ " deleted").

Definition add : M unit :=
  let! s := get in
  setScenes (scenes s ++ [Some (mkScene (scene_id (length (scenes s) + 1))
                                        "Enter text..." "" 5 "" "")]).

(* dup(idx).  { ...scenes[idx], id } copies the scene and replaces its id.
   Where scenes[idx] is undefined the copy is { id } alone, an object
   without text or duration, which Scene does not hold: None.  The Copy
   button of card idx is drawn from scenes[idx], so a click finds a scene
   there. *)
Definition dup (idx : nat) (s : State) : option (outcome unit) :=
  match scenes s !! idx with
  | Some (Some sc) =>
      let s' := with_id (scene_id (length (scenes s) + 1)) sc in
      let upd := splice (idx + 1) 0 [Some s'] (scenes s) in
      Some ((setScenes upd ;;
             setStatus ("📋 Scene " +:+ pretty (idx + 1)%nat +:+ " duplicated")) s)
  | _ => None
  end.

(* key={s.id} of each card; None where the array holds undefined. *)
Definition ids (l : list (option Scene)) : list (option string) :=
  (λ o : option Scene, id <$> o) <$> l.

(* The scenes carry the ids scene_1, scene_2, ... in order. *)
Definition numbered (l : list (option Scene)) : Prop :=
  ids l = (λ i, Some (scene_id (S i))) <$> seq 0 (length l).

(* m called n times in a row. *)
Fixpoint times (n : nat) (m : M unit) : M unit :=
  match n with
  | O => ret tt
  | S n' => m ;; times n' m
  end.

(* The summary panel.  Each total walks the array and reads a property of
   every element, which throws on undefined. *)
Definition reduce_step {A} (f : A → Scene → A) (acc : M A) (o : option Scene) : M A :=
  let! a := acc in
  let! s := prop o in
  ret (f a s).
Definition scene_fold {A} (f : A → Scene → A) (init : A) : M A :=
  let! st := get in
  foldl (reduce_step f) (ret init) (scenes st).

(* x || 0 for a number x *)
Definition num_or_zero (x : Z) : Z := if x =? 0 then 0 else x.

(* str.split(' ').length: one more than the number of spaces *)
Fixpoint spaces (str : string) : Z :=
  match str with
  | EmptyString => 0
  | String c str' => (if Ascii.eqb c " "%char then 1 else 0) + spaces str'
  end.
Definition split_length (str : string) : Z := spaces str + 1.

(* scenes.reduce((sum, s) => sum + (parseFloat(s.duration) || 0), 0) *)
Definition totalDur : M Z := scene_fold (λ sum s, sum + num_or_zero (duration s)) 0.
(* scenes.reduce((sum, s) => sum + (s.text?.split(' ').length || 0), 0) *)
Definition totalWords : M Z := scene_fold (λ sum s, sum + num_or_zero (split_length (text s))) 0.
(* scenes.filter(s => s.background_path).length *)
Definition withImages : M nat :=
  scene_fold (λ n s, if String.eqb (background_path s) "" then n else S n) 0%nat.

(* What a computation returned, if it did. *)
Definition value {A} (o : outcome A) : option A :=
  match o with
  | Return a _ => Some a
  | Throw _ _ => None
  end.



(* --------------------------------------------------------------------- *)
(* Time display                                                          *)
(* --------------------------------------------------------------------- *)






(* --------------------------------------------------------------------- *)
(* Loading the ElevenLabs voices                                         *)
(* --------------------------------------------------------------------- *)

Module Voices.

(* An entry of data.voices, as the voice menus read it. *)
Record Voice := mkVoice { voice_id : string; name : string }.

(* The component with the cells of the voice loader beside those above.
   [requests] counts the calls of loadVoices() suspended at an await. *)
Record Page := mkPage {
  page : State;
  useElevenLabs : bool;
  voices : list Voice;
  voicesLoading : bool;
  voicesLoaded : bool;
  requests : nat }.

Definition with_page (v : State) (p : Page) : Page :=
  mkPage v (useElevenLabs p) (voices p) (voicesLoading p) (voicesLoaded p) (requests p).
Definition with_useElevenLabs (v : bool) (p : Page) : Page :=
  mkPage (page p) v (voices p) (voicesLoading p) (voicesLoaded p) (requests p).
Definition with_voices (v : list Voice) (p : Page) : Page :=
  mkPage (page p) (useElevenLabs p) v (voicesLoading p) (voicesLoaded p) (requests p).
Definition with_voicesLoading (v : bool) (p : Page) : Page :=
  mkPage (page p) (useElevenLabs p) (voices p) v (voicesLoaded p) (requests p).
Definition with_voicesLoaded (v : bool) (p : Page) : Page :=
  mkPage (page p) (useElevenLabs p) (voices p) (voicesLoading p) v (requests p).
Definition with_requests (v : nat) (p : Page) : Page :=
  mkPage (page p) (useElevenLabs p) (voices p) (voicesLoading p) (voicesLoaded p) v.

Definition setStatus (v : string) (p : Page) : Page := with_page (with_status v (page p)) p.

(* useState(false), useState([]), useState(false), useState(false) *)
Definition mounted : Page := mkPage initial false [] false false 0.

(* What the awaits of loadVoices() produce: the parsed body with its
   success, voices (None unless an array) and error fields, or an
   exception thrown on the way (fetch or res.json() rejected, the body
   was not an object) with its message. *)
Inductive reply :=
| Body (success : bool) (voices : option (list Voice)) (error : option string)
| Failed (message : string).

(* loadVoices() up to its first await. *)
Definition loadVoices_begin (p : Page) : Page :=
  if voicesLoading p || voicesLoaded p then p
  else
    let p := with_voicesLoading true p in
    let p := setStatus "🎙️ Loading ElevenLabs voices..." p in
    with_requests (S (requests p)) p.

(* catch (err) { ... } *)
Definition loadVoices_catch (message : string) (p : Page) : Page :=
  let p := setStatus ("❌ Voice loading failed: " +:+ message) p in
  with_voicesLoaded false p.

(* loadVoices() from the awaits on: try body, catch, finally. *)
Definition loadVoices_settle (r : reply) (p : Page) : Page :=
  let p :=
    match r with
    | Body true (Some vs) _ =>
        let p := with_voices vs p in
        let p := with_voicesLoaded true p in
        setStatus ("✅ Loaded " +:+ pretty (length vs) +:+ " voices") p
    | Body _ _ error =>
        loadVoices_catch (if truthy error then default "" error else "Invalid response") p
    | Failed message => loadVoices_catch message p
    end in
  with_voicesLoading false p.

(* The handler reads voicesLoaded and voicesLoading of the render that
   created it, as loadVoices() does. *)
Definition toggleElevenLabs (enabled : bool) (p : Page) : Page :=
  let p' := with_useElevenLabs enabled p in
  if enabled && negb (voicesLoaded p) && negb (voicesLoading p)
  then loadVoices_begin p'
  else p'.

(* The checkbox and the replies of the server. *)
Inductive event :=
| Toggle (enabled : bool)
| Reply (r : reply).

(* None: no loadVoices() is waiting for this reply. *)
Definition step (ev : event) (p : Page) : option Page :=
  match ev with
  | Toggle enabled => Some (toggleElevenLabs enabled p)
  | Reply r =>
      match requests p with
      | O => None
      | S k => Some (loadVoices_settle r (with_requests k p))
      end
  end.

Fixpoint run (evs : list event) (p : Page) : option (list Page) :=
  match evs with
  | [] => Some []
  | ev :: evs' =>
      match step ev p with
      | Some p' => (p' ::.) <$> run evs' p'
      | None => None
      end
  end.

(* The reply carries a list of voices and reports success. *)
Definition succeeds (r : reply) : bool :=
  match r with
  | Body true (Some _) _ => true
  | _ => false
  end.

(* At most the request that voicesLoading announces is waiting, and none
   once the voices are loaded. *)
Definition settled_or_one (p : Page) : Prop :=
  requests p = (if voicesLoading p then 1%nat else 0%nat)
  ∧ (voicesLoaded p = true → voicesLoading p = false).

End Voices.


(* --------------------------------------------------------------------- *)
(* Sample inputs                                                         *)
(* --------------------------------------------------------------------- *)

(* The page with three scenes and nothing running. *)
Definition ready : State := with_scenes three_scenes initial.

(* One render of it: the click, two timers, the reply with the file. *)
Definition one_render_reply : response :=
  Data (Some "out.mp4") (Some "/api/download/out.mp4") None.
Definition one_render : list event :=
  (0, ClickRender) :: fires [(200, 1%positive); (290, 2%positive)]
  ++ [(5000, Settle one_render_reply)].
Definition one_render_states : list State :=
  default [] (run STAGES "" one_render ready).
Definition one_render_end : State := default initial (last one_render_states).

(* A second click while the first render is running. *)
Definition impatient : list event :=
  [(0, ClickRender); (100, ClickRender); (200, Fire 1%positive);
   (250, ClickRender); (5000, Settle one_render_reply)].
Definition impatient_states : list State :=
  default [] (run STAGES "" impatient ready).

(* A card index that is not there. *)
Definition dragging_missing : State := with_draggedIdx (Some 5%nat) ready.

(* The switch turned on, off and on while the server answers once. *)
Definition alice : Voices.Voice := Voices.mkVoice "v1" "Alice".
Definition switching : list Voices.event :=
  [Voices.Toggle true; Voices.Toggle false; Voices.Toggle true;
   Voices.Reply (Voices.Body true (Some [alice]) None); Voices.Toggle true].
Definition switching_pages : list Voices.Page :=
  default [] (Voices.run switching Voices.mounted).
Definition asked : Voices.Page := Voices.toggleElevenLabs true Voices.mounted.
Definition loaded : Voices.Page :=
  Voices.loadVoices_settle (Voices.Body true (Some [alice]) None)
    (Voices.with_requests 0 asked).
Definition switched_again : list Voices.Page :=
  default [] (Voices.run [Voices.Toggle false; Voices.Toggle true] loaded).

(* ===================================================================== *)
(* Properties                                                            *)
(* ===================================================================== *)

(* Arithmetic of the interpolation *)

Section Arith.
Local Open Scope Q_scope.

Lemma ms_pos (m : positive) : 0 < inject_Z (Z.pos m).
Proof. change 0 with (inject_Z 0). rewrite <- Zlt_Qlt. lia. Qed.

Lemma div_lt_1 (e : Z) (m : positive) :
  inject_Z e / inject_Z (Z.pos m) < 1 ↔ (e < Z.pos m)%Z.
Proof.
  pose proof (ms_pos m) as Hm. split; intros H.
  - rewrite Zlt_Qlt. apply Qmult_lt_r with (z := / inject_Z (Z.pos m)).
    + by apply Qinv_lt_0_compat.
    + rewrite Qmult_inv_r; [exact H | ]. intros E. rewrite E in Hm. by apply Qlt_irrefl in Hm.
  - apply Qlt_shift_div_r; [done|]. rewrite Qmult_1_l. by rewrite <- Zlt_Qlt.
Qed.

Lemma frac_lt_1 (e : Z) (m : positive) :
  Math_min (inject_Z e / inject_Z (Z.pos m)) 1 < 1 ↔ (e < Z.pos m)%Z.
Proof.
  unfold Math_min. rewrite Q.min_lt_iff, div_lt_1. split; [|tauto].
  intros [H|H]; [done|]. by apply Qlt_irrefl in H.
Qed.

Lemma frac_ge_1 (e : Z) (m : positive) :
  (Z.pos m <= e)%Z → Math_min (inject_Z e / inject_Z (Z.pos m)) 1 == 1.
Proof.
  intros H. unfold Math_min. apply Q.min_r.
  apply Qnot_lt_le. rewrite div_lt_1. lia.
Qed.

Lemma frac_mono (e1 e2 : Z) (m : positive) :
  (e1 <= e2)%Z →
  Math_min (inject_Z e1 / inject_Z (Z.pos m)) 1
  <= Math_min (inject_Z e2 / inject_Z (Z.pos m)) 1.
Proof.
  intros H. unfold Math_min. apply Q.min_le_compat_r.
  unfold Qdiv. apply Qmult_le_compat_r.
  - by rewrite <- Zle_Qle.
  - apply Qlt_le_weak, Qinv_lt_0_compat, ms_pos.
Qed.

Lemma Math_round_Z (z : Z) : Math_round (inject_Z z) = z.
Proof.
  unfold Math_round.
  pose proof (Qfloor_le (inject_Z z + (1 # 2))) as H1.
  pose proof (Qlt_floor (inject_Z z + (1 # 2))) as H2.
  set (k := Qfloor _) in *.
  assert (inject_Z k < inject_Z (z + 1)).
  { eapply Qle_lt_trans; [exact H1|]. rewrite inject_Z_plus.
    apply Qplus_lt_r. reflexivity. }
  assert (inject_Z z < inject_Z (k + 1)).
  { eapply Qle_lt_trans; [|exact H2]. rewrite <- (Qplus_0_r (inject_Z z)) at 1.
    apply Qplus_le_r. discriminate. }
  rewrite <- Zlt_Qlt in *. lia.
Qed.

Lemma Math_round_mono (x y : Q) : x <= y → (Math_round x <= Math_round y)%Z.
Proof.
  intros H. unfold Math_round. apply Qfloor_resp_le.
  apply Qplus_le_l. exact H.
Qed.

End Arith.

Lemma interp_0 c n : interp c n 0 = pct c.
Proof.
  unfold interp. rewrite <- (Math_round_Z (pct c)) at 3.
  unfold Math_round. apply Qfloor_comp.
  assert (E : (Math_min (inject_Z 0 / inject_Z (Z.pos (ms c))) 1 == 0)%Q).
  { unfold Math_min. rewrite Q.min_l; [reflexivity|]. 
    unfold Qdiv. rewrite Qmult_0_l. discriminate. }
  rewrite E. ring.
Qed.

Lemma interp_full c n e : Z.pos (ms c) <= e → interp c n e = pct n.
Proof.
  intros H. unfold interp. rewrite <- (Math_round_Z (pct n)) at 2.
  unfold Math_round. apply Qfloor_comp.
  rewrite (frac_ge_1 _ _ H). ring.
Qed.

Lemma interp_mono c n e1 e2 :
  pct c <= pct n → e1 <= e2 → interp c n e1 <= interp c n e2.
Proof.
  intros Hp He. unfold interp. apply Math_round_mono.
  apply Qplus_le_r. rewrite !(Qmult_comm (_ - _)).
  apply Qmult_le_compat_r; [by apply frac_mono|].
  rewrite <- (Qplus_opp_r (inject_Z (pct c))). apply Qplus_le_l.
  by rewrite <- Zle_Qle.
Qed.

Lemma interp_bounds c n e :
  pct c <= pct n → 0 <= e → pct c <= interp c n e <= pct n.
Proof.
  intros Hp He. split.
  - rewrite <- (interp_0 c n). by apply interp_mono.
  - destruct (Z_lt_le_dec e (Z.pos (ms c))).
    + rewrite <- (interp_full c n (Z.pos (ms c))) by lia. apply interp_mono; lia.
    + rewrite interp_full; lia.
Qed.

Section DriverFacts.
Variable T : list StageEntry.

Lemma interpolate_running r c n st s :
  now s - st < Z.pos (ms c) →
  interpolate T r (Some c) (Some n) st s
  = Return tt (schedule (Interpolate r (Some c) (Some n) st) 80
                 (with_progress (interp c n (now s - st)) s)).
Proof.
  intros H. unfold interpolate, bind, Date_now, prop, ret; cbn -[Math_round Math_min Qplus Qmult Qminus Qdiv inject_Z Qlt_le_dec].
  destruct (Qlt_le_dec _ _) as [Hq|Hq].
  - reflexivity.
  - apply (proj2 (frac_lt_1 _ _)) in H. exfalso. eapply Qlt_not_le; eauto.
Qed.

Lemma interpolate_done r c n st s e' :
  Z.pos (ms c) <= now s - st →
  T !! S (stageIdx s r) = Some e' →
  interpolate T r (Some c) (Some n) st s
  = Return tt (schedule (Tick r) 100
                 (with_stage (label e')
                    (with_stageIdx (<[r := S (stageIdx s r)]> (stageIdx s))
                       (with_progress (pct n) s)))).
Proof.
  intros H HT. unfold interpolate, bind, Date_now, prop, ret; cbn -[Math_round Math_min Qplus Qmult Qminus Qdiv inject_Z Qlt_le_dec].
  destruct (Qlt_le_dec _ _) as [Hq|Hq].
  - apply (proj1 (frac_lt_1 _ _)) in Hq. lia.
  - unfold get_stageIdx; cbn -[Math_round Math_min Qplus Qmult Qminus Qdiv inject_Z Qlt_le_dec].
    pose proof (lookup_lt_Some _ _ _ HT).
    destruct (Z.ltb_spec (Z.of_nat (S (stageIdx s r))) (Z.of_nat (length T))); [|lia].
    rewrite HT. change (Math_round _) with (interp c n (now s - st)). rewrite interp_full by done.
    reflexivity.
Qed.

Lemma tick_last r s :
  (length T <= S (stageIdx s r))%nat → tick T r s = Return tt s.
Proof.
  intros H. unfold tick, bind, get_stageIdx.
  destruct (Z.leb_spec (Z.of_nat (length T) - 1) (Z.of_nat (stageIdx s r))); [done|lia].
Qed.

Lemma tick_begin r s c n :
  T !! stageIdx s r = Some c → T !! S (stageIdx s r) = Some n →
  tick T r s
  = Return tt (schedule (Interpolate r (Some c) (Some n) (now s)) 80
                 (with_progress (pct c) s)).
Proof.
  intros Hc Hn. unfold tick, bind, get_stageIdx.
  pose proof (lookup_lt_Some _ _ _ Hn).
  destruct (Z.leb_spec (Z.of_nat (length T) - 1) (Z.of_nat (stageIdx s r))); [lia|].
  rewrite Hc, Hn. unfold Date_now at 1. cbn beta iota.
  rewrite interpolate_running by (rewrite Z.sub_diag; lia).
  rewrite Z.sub_diag, interp_0. reflexivity.
Qed.

Lemma start_ok e s :
  T !! 0%nat = Some e →
  startProgressAnimation T s
  = Return tt (schedule (Tick (nextRun s)) 200
                 (with_stage (label e)
                    (with_progress 0
                       (with_stageIdx (<[nextRun s := 0%nat]> (stageIdx s))
                          (with_nextRun (S (nextRun s))
                             (with_renderStartRef (Some (now s)) s)))))).
Proof.
  intros H. unfold startProgressAnimation, bind, Date_now, modify, get. cbn.
  rewrite H. reflexivity.
Qed.

Lemma start_empty s : T = [] → ∃ e s', startProgressAnimation T s = Throw e s'.
Proof. intros ->. eexists _, _. cbv. reflexivity. Qed.

End DriverFacts.

Lemma increasing_adjacent T i c n :
  increasing T → T !! i = Some c → T !! S i = Some n → pct c < pct n.
Proof.
  unfold increasing. revert i. induction T as [|a T IH]; intros i HS Hc Hn; [done|].
  cbn in HS. apply Sorted_inv in HS as [HS Hd].
  destruct i as [|i]; cbn in *.
  - destruct T as [|b T]; simplify_eq/=. by apply HdRel_inv in Hd.
  - eauto.
Qed.

Lemma nondecreasing_nil : nondecreasing [].
Proof. intros i j x y _ H. done. Qed.

Lemma nondecreasing_singleton x : nondecreasing [x].
Proof.
  intros i j a b _ Hi Hj. apply list_lookup_singleton_Some in Hi as [_ <-].
  apply list_lookup_singleton_Some in Hj as [_ <-]. done.
Qed.

Lemma nondecreasing_cons x y l :
  x <= y → nondecreasing (y :: l) → nondecreasing (x :: y :: l).
Proof.
  intros Hxy Hl i j a b Hij Hi Hj.
  destruct i as [|i]; simplify_eq/=.
  - destruct j as [|j]; simplify_eq/=; [done|].
    etrans; [exact Hxy|]. apply (Hl 0%nat j); [lia|done..].
  - destruct j as [|j]; [lia|]. cbn in Hj. apply (Hl i j); [lia|done..].
Qed.

Section Run.
Variable T : list StageEntry.
Variable API : string.

Lemma start_phase s :
  timers s = ∅ → T ≠ [] →
  ∃ s', startProgressAnimation T s = Return tt s' ∧ phase T (nextRun s) true s'
        ∧ progress s' = 0 ∧ now s' = now s
        ∧ potential T (nextRun s) s' = fires_needed T.
Proof.
  intros Ht HT. destruct (T !! 0%nat) as [e|] eqn:He.
  2:{ apply lookup_ge_None in He. exfalso. apply HT.
      by apply length_zero_iff_nil, Nat.le_0_r. }
  eexists. split; [by apply (start_ok _ e)|]. split_and!; [|done..|].
  - eapply (Started T _ _ _ _ e); cbn; try done.
    + by rewrite Ht, insert_empty.
    + by rewrite fn_lookup_insert.
  - unfold potential. cbn. rewrite Ht, insert_empty, map_to_list_singleton.
    by rewrite fn_lookup_insert.
Qed.

Lemma potential_tick r r' s h due :
  timers s = {[h := (Tick r', due)]} →
  potential T r s = fires_needed (drop (stageIdx s r) T).
Proof. intros Ht. unfold potential. by rewrite Ht, map_to_list_singleton. Qed.

Lemma potential_interpolate r r' s h due c n st :
  timers s = {[h := (Interpolate r' (Some c) n st, due)]} →
  potential T r s
  = (Z.to_nat ((Z.pos (ms c) - (due - 80 - st) + 79) / 80)
     + fires_needed (drop (S (stageIdx s r)) T))%nat.
Proof. intros Ht. unfold potential. by rewrite Ht, map_to_list_singleton. Qed.

Lemma potential_none r s : timers s = ∅ → potential T r s = 0%nat.
Proof. intros Ht. unfold potential. by rewrite Ht, map_to_list_empty. Qed.

Lemma fires_needed_step i c n :
  T !! i = Some c → T !! S i = Some n →
  fires_needed (drop i T)
  = S (Z.to_nat ((Z.pos (ms c) + 79) / 80) + fires_needed (drop (S i) T)).
Proof.
  intros Hc Hn. rewrite (drop_S _ _ _ Hc), (drop_S _ _ _ Hn). reflexivity.
Qed.

Lemma fires_needed_last i e :
  T !! i = Some e → T !! S i = None → fires_needed (drop i T) = 1%nat.
Proof.
  intros He Hn. rewrite (drop_S _ _ _ He).
  apply lookup_ge_None in Hn. by rewrite drop_ge.
Qed.

Lemma ticks_left_lt (a b : Z) :
  0 <= a → a + 80 <= b → (Z.to_nat (a / 80) < Z.to_nat (b / 80))%nat.
Proof.
  intros Ha Hab.
  assert (a / 80 + 1 <= b / 80).
  { replace (a / 80 + 1) with ((a + 1 * 80) / 80) by (by rewrite Z.div_add).
    apply Z.div_le_mono; lia. }
  assert (0 <= a / 80) by (apply Z.div_pos; lia). lia.
Qed.

Ltac side Ht :=
  cbn; rewrite ?Ht, ?delete_singleton_eq, ?insert_empty, ?Z.sub_diag,
         ?interp_0, ?fn_lookup_insert;
  first [done | lia | idtac].

(* One timer callback of the run: it returns, the run stays in phase,
   the bound on the callbacks left goes down, and the bar does not go
   back when the thresholds increase. *)
Lemma fire_phase r b s t h o :
  phase T r b s → step T API (t, Fire h) s = Some o →
  ∃ s', o = Return tt s' ∧ phase T r false s' ∧ now s' = t ∧ now s <= t
        ∧ (potential T r s' < potential T r s)%nat
        ∧ (increasing T →
           b = false ∨ (∀ e, T !! 0%nat = Some e → 0 <= pct e) →
           progress s <= progress s').
Proof.
  intros Hp Hs. unfold step in Hs.
  destruct (Z.leb_spec (now s) t) as [Hnow|]; [|done]. cbn in Hs.
  destruct (timers s !! h) as [[cb due']|] eqn:Hh; [|done].
  destruct (Z.leb_spec due' t) as [Hdue|]; [|done]. simplify_eq.
  set (s2 := with_timers _ _).
  destruct Hp as [s h0 due e Ht Href Hi He Hpr Hst
                 |s h0 due e Ht Href Hi He Hpr Hst
                 |s h0 due c n st tl Ht Href Hc Hn Htl Hlt Hdue' Hpr Hst
                 |s e Ht He Hi Hpr Hst].
  - rewrite Ht in Hh. apply lookup_singleton_Some in Hh as [-> [= <- <-]].
    cbn [run_callback]. rewrite (potential_tick r r s h due Ht), Hi.
    destruct (T !! 1%nat) as [n|] eqn:Hn.
    + rewrite (tick_begin T r s2 e n) by (subst s2; cbn; by rewrite ?Hi).
      eexists. split; [done|]. split_and!; try done.
      * eapply (Moving T _ _ _ _ e n t t); side Ht; rewrite ?Hi; done.
      * erewrite potential_interpolate; [|by side Ht].
        cbn. rewrite Hi, (fires_needed_step 0 e n) by done.
        replace (Z.pos (ms e) - (t + 80 - 80 - t) + 79)
          with (Z.pos (ms e) + 79) by lia. lia.
      * cbn. intros _ [?|H0]; [done|]. rewrite Hpr. by apply H0.
    + pose proof (fires_needed_last 0 e He Hn) as HF.
      apply lookup_ge_None in Hn. pose proof (lookup_lt_Some _ _ _ He).
      rewrite tick_last by (subst s2; cbn; rewrite Hi; lia).
      eexists. split; [done|]. split_and!; try done.
      * eapply (Finished T _ _ e); subst s2; side Ht; rewrite ?Hi; first [done|lia].
      * rewrite potential_none by (subst s2; side Ht). lia.
  - rewrite Ht in Hh. apply lookup_singleton_Some in Hh as [-> [= <- <-]].
    cbn [run_callback]. rewrite (potential_tick r r s h due Ht).
    destruct (T !! S (stageIdx s r)) as [n|] eqn:Hn.
    + rewrite (tick_begin T r s2 e n) by (subst s2; cbn; done).
      eexists. split; [done|]. split_and!; try done.
      * eapply (Moving T _ _ _ _ e n t t); side Ht.
      * erewrite potential_interpolate; [|by side Ht].
        cbn. rewrite (fires_needed_step (stageIdx s r) e n) by done.
        replace (Z.pos (ms e) - (t + 80 - 80 - t) + 79)
          with (Z.pos (ms e) + 79) by lia. lia.
      * cbn. intros _ _. lia.
    + pose proof (fires_needed_last _ e He Hn) as HF.
      apply lookup_ge_None in Hn. pose proof (lookup_lt_Some _ _ _ He).
      rewrite tick_last by (subst s2; cbn; lia).
      eexists. split; [done|]. split_and!; try done.
      * eapply (Finished T _ _ e); subst s2; side Ht.
        destruct (stageIdx s r); done.
      * rewrite potential_none by (subst s2; side Ht). lia.
  - rewrite Ht in Hh. apply lookup_singleton_Some in Hh as [-> [= <- <-]].
    cbn [run_callback].
    rewrite (potential_interpolate r r s h due c (Some n) st Ht).
    destruct (Z_lt_le_dec (t - st) (Z.pos (ms c))) as [Hr|Hr].
    + rewrite interpolate_running by (subst s2; cbn; done).
      eexists. split; [done|]. split_and!; try done.
      * eapply (Moving T _ _ _ _ c n st t); side Ht.
      * erewrite potential_interpolate; [|by side Ht]. cbn.
        apply Nat.add_lt_mono_r, ticks_left_lt; lia.
      * cbn. intros Hinc _. rewrite Hpr.
        pose proof (increasing_adjacent _ _ _ _ Hinc Hc Hn).
        apply interp_mono; lia.
    + rewrite (interpolate_done T r c n st s2 n) by (subst s2; cbn; done).
      eexists. split; [done|]. split_and!; try done.
      * eapply (Waiting T _ _ _ _ n); side Ht.
      * erewrite potential_tick; [|by side Ht]. cbn. rewrite fn_lookup_insert.
        assert (1 <= (Z.pos (ms c) - (due - 80 - st) + 79) / 80).
        { apply Z.div_le_lower_bound; lia. }
        lia.
      * cbn. intros Hinc _. rewrite Hpr.
        pose proof (increasing_adjacent _ _ _ _ Hinc Hc Hn).
        apply interp_bounds; lia.
  - by rewrite Ht in Hh.
Qed.

Lemma run_fires_cons t h l s :
  run T API (fires ((t, h) :: l)) s
  = match step T API (t, Fire h) s with
    | Some (Return _ s') => (s' ::.) <$> run T API (fires l) s'
    | _ => None
    end.
Proof. reflexivity. Qed.

Lemma run_fires_phase r l : ∀ b s sts,
  phase T r b s → run T API (fires l) s = Some sts →
  Forall (phase T r false) sts
  ∧ (length l ≤ potential T r s)%nat
  ∧ (increasing T →
     b = false ∨ (∀ e, T !! 0%nat = Some e → 0 <= pct e) →
     nondecreasing (progress <$> s :: sts)).
Proof.
  induction l as [|[t h] l IH]; intros b s sts Hp Hrun.
  - cbn in Hrun. simplify_eq. split_and!; [constructor|cbn; lia|].
    intros _ _. apply nondecreasing_singleton.
  - rewrite run_fires_cons in Hrun.
    destruct (step T API (t, Fire h) s) as [o|] eqn:Hs; [|done].
    destruct (fire_phase _ _ _ _ _ _ Hp Hs) as (s' & -> & Hp' & _ & _ & Hpot & Hle).
    destruct (run T API (fires l) s') as [sts'|] eqn:Hr; [|done].
    cbn in Hrun. simplify_eq.
    destruct (IH _ _ _ Hp' Hr) as (HF & Hlen & Hnd). split_and!.
    + by constructor.
    + cbn. lia.
    + intros Hinc Hb. cbn. apply nondecreasing_cons; [by apply Hle|].
      apply Hnd; [done|by left].
Qed.

(* A pending tick can always fire once it is due, and it returns. *)
Lemma pending_tick_fires r b s h cb due t :
  phase T r b s → timers s !! h = Some (cb, due) →
  now s <= t → due <= t →
  ∃ s', step T API (t, Fire h) s = Some (Return tt s') ∧ phase T r false s'.
Proof.
  intros Hp Hh Hnow Hdue.
  assert (Hen : ∃ o, step T API (t, Fire h) s = Some o).
  { unfold step. destruct (Z.leb_spec (now s) t); [|lia]. cbn.
    rewrite Hh. destruct (Z.leb_spec due t); [|lia]. by eexists. }
  destruct Hen as [o Ho].
  destruct (fire_phase _ _ _ _ _ _ Hp Ho) as (s' & -> & Hp' & _).
  by exists s'.
Qed.

End Run.

(* Timers and progressTimerRef *)

Lemma tracked_delete_empty s h x :
  tracked s → timers s !! h = Some x → delete h (timers s) = ∅.
Proof.
  intros Htr Hh. apply map_empty. intros i.
  destruct (decide (i = h)) as [->|Hne]; [apply lookup_delete_eq|].
  rewrite lookup_delete_ne by done.
  destruct (timers s !! i) as [y|] eqn:Hi; [|done].
  pose proof (Htr _ _ Hi). pose proof (Htr _ _ Hh). congruence.
Qed.

Lemma tracked_empty s : timers s = ∅ → tracked s.
Proof. intros H h x Hh. by rewrite H in Hh. Qed.

Lemma tracked_schedule cb d s : timers s = ∅ → tracked (schedule cb d s).
Proof.
  intros H h x. unfold schedule. cbn. rewrite H, insert_empty.
  intros [-> _]%lookup_singleton_Some. done.
Qed.

Lemma stop_spec success s :
  stopProgress success s
  = Return tt (with_stage (if success then "Complete! ✅" else "")
                 (with_progress (if success then 100 else 0)
                    (with_timers (match progressTimerRef s with
                                  | Some h => delete h (timers s)
                                  | None => timers s
                                  end) s))).
Proof.
  unfold stopProgress, bind, get. destruct s as [? ? ? ? ? ? ? ? [h|] ? ? ? ? ? ? ?];
    destruct success; reflexivity.
Qed.

Lemma stop_tracked success s :
  tracked s → timers (state_of (stopProgress success s)) = ∅.
Proof.
  intros Htr. rewrite stop_spec. cbn.
  destruct (progressTimerRef s) as [h|] eqn:Href.
  - destruct (timers s !! h) as [x|] eqn:Hh.
    + by eapply tracked_delete_empty.
    + rewrite delete_id by done. apply map_empty. intros i.
      destruct (timers s !! i) as [y|] eqn:Hi; [|done].
      pose proof (Htr _ _ Hi). congruence.
  - apply map_empty. intros i.
    destruct (timers s !! i) as [y|] eqn:Hi; [|done].
    pose proof (Htr _ _ Hi). congruence.
Qed.

Lemma timer_effect_none s s' :
  loading s' = loading s → awaiting s' = awaiting s → now s' = now s →
  timers s' = timers s → nextTimer s' = nextTimer s →
  progressTimerRef s' = progressTimerRef s → timer_effect s s'.
Proof. intros. split_and!; try done. by left. Qed.

Lemma timer_effect_schedule cb d s s0 :
  loading s0 = loading s → awaiting s0 = awaiting s → now s0 = now s →
  timers s0 = timers s → nextTimer s0 = nextTimer s →
  timer_effect s (schedule cb d s0).
Proof.
  intros Hl Ha Hn Ht Hx. split_and!; try done. right. exists cb, (now s0 + d).
  cbn. by rewrite Ht, Hx.
Qed.

Section Effects.
Variable T : list StageEntry.
Variable API : string.

Lemma callback_effect cb s : timer_effect s (state_of (run_callback T cb s)).
Proof.
  destruct cb as [r|r [c|] [n|] st]; cbn [run_callback].
  - unfold tick, bind, get_stageIdx.
    destruct (_ <=? _); [by apply timer_effect_none|].
    unfold Date_now at 1. cbn beta iota.
    destruct (T !! stageIdx s r) as [c|] eqn:Hc; [|by apply timer_effect_none].
    destruct (T !! S (stageIdx s r)) as [n|] eqn:Hn; [|by apply timer_effect_none].
    rewrite interpolate_running by (rewrite Z.sub_diag; lia).
    by apply timer_effect_schedule.
  - destruct (Z_lt_le_dec (now s - st) (Z.pos (ms c))) as [Hr|Hr].
    + rewrite interpolate_running by done. by apply timer_effect_schedule.
    + destruct (T !! S (stageIdx s r)) as [e'|] eqn:He.
      * rewrite (interpolate_done T r c n st s e') by done. by apply timer_effect_schedule.
      * unfold interpolate, bind, Date_now, prop, ret;
          cbn -[Math_round Math_min Qplus Qmult Qminus Qdiv inject_Z Qlt_le_dec].
        destruct (Qlt_le_dec _ _) as [Hq|Hq].
        { apply (proj1 (frac_lt_1 _ _)) in Hq. lia. }
        unfold get_stageIdx; cbn -[Math_round Math_min Qplus Qmult Qminus Qdiv inject_Z Qlt_le_dec].
        destruct (_ <? _); [rewrite He|]; by apply timer_effect_none.
  - by apply timer_effect_none.
  - by apply timer_effect_none.
  - by apply timer_effect_none.
Qed.

Lemma start_effect s : timer_effect s (state_of (startProgressAnimation T s)).
Proof.
  destruct (T !! 0%nat) as [e|] eqn:He.
  - rewrite (start_ok T e s He). by apply timer_effect_schedule.
  - unfold startProgressAnimation, bind, Date_now, modify, get. cbn.
    rewrite He. by apply timer_effect_none.
Qed.

Lemma timer_effect_fresh s s' :
  timer_effect s s' → fresh_handles s → fresh_handles s'.
Proof.
  intros (_ & _ & _ & [(Ht & Hn & _)|(cb & d & Ht & Hn & _)]) Hf h x Hh.
  - rewrite Ht in Hh. rewrite Hn. by eapply Hf.
  - rewrite Ht in Hh. rewrite Hn.
    destruct (decide (h = nextTimer s)) as [->|Hne]; [lia|].
    rewrite lookup_insert_ne in Hh by done. apply Hf in Hh. lia.
Qed.

Lemma timer_effect_tracked s s' :
  timer_effect s s' → timers s = ∅ → tracked s' ∧ (size (timers s') ≤ 1)%nat.
Proof.
  intros (_ & _ & _ & [(Ht & _ & _)|(cb & d & Ht & _ & Hr)]) He.
  - rewrite He in Ht. split; [by apply tracked_empty|]. rewrite Ht, map_size_empty. lia.
  - rewrite He, insert_empty in Ht. split.
    + intros h x. rewrite Ht. by intros [<- _]%lookup_singleton_Some.
    + rewrite Ht, map_size_singleton. lia.
Qed.

Lemma fresh_delete h s :
  fresh_handles s → fresh_handles (with_timers (delete h (timers s)) s).
Proof.
  intros Hf i x Hi. cbn in *.
  destruct (decide (i = h)) as [->|Hne]; [by rewrite lookup_delete_eq in Hi|].
  rewrite lookup_delete_ne in Hi by done. by eapply Hf.
Qed.

Lemma stop_fresh success s :
  fresh_handles s → fresh_handles (state_of (stopProgress success s)).
Proof.
  intros Hf. rewrite stop_spec. cbn. destruct (progressTimerRef s) as [h|].
  - intros i x Hi. cbn in Hi. by apply (fresh_delete h s Hf i x).
  - exact Hf.
Qed.

(* Every event keeps handles fresh. *)
Lemma step_fresh ev s o :
  fresh_handles s → step T API ev s = Some o → fresh_handles (state_of o).
Proof.
  intros Hf Hs. destruct ev as [t a]. unfold step in Hs.
  destruct (negb _); [done|].
  assert (Hf1 : fresh_handles (with_now t s)) by exact Hf.
  destruct a as [|success|h| |o']; cbv beta iota zeta in Hs.
  - simplify_eq. eapply timer_effect_fresh; [apply start_effect|done].
  - simplify_eq. by apply stop_fresh.
  - destruct (timers (with_now t s) !! h) as [[cb due]|]; [|done].
    destruct (due <=? t); [|done]. simplify_eq.
    eapply timer_effect_fresh; [apply callback_effect|].
    by apply (fresh_delete h (with_now t s)).
  - destruct (loading (with_now t s)); simplify_eq; [done|].
    unfold render_begin, bind, get. destruct (_ =? _)%nat; [done|].
    cbn [setLoading setRendering setVideoUrl setStatus modify].
    set (s2 := with_status _ _).
    assert (Hf2 : fresh_handles s2) by exact Hf.
    pose proof (start_effect s2) as He.
    destruct (startProgressAnimation T s2) as [[] s3|e s3]; cbn in *.
    + apply (timer_effect_fresh s2) in He; done.
    + apply (timer_effect_fresh s2) in He; done.
  - destruct (awaiting (with_now t s)) as [|k]; [done|]. simplify_eq.
    set (s2 := with_awaiting k (with_now t s)).
    assert (Hf2 : fresh_handles s2) by exact Hf.
    pose proof (stop_fresh false s2 Hf2) as H0.
    pose proof (stop_fresh true s2 Hf2) as H1.
    rewrite stop_spec in H0, H1.
    destruct o' as [filename download_url error|message];
      unfold render_settle, bind; rewrite stop_spec; cbn.
    + destruct (truthy filename); cbn; [exact H1|exact H0].
    + exact H0.
Qed.

Lemma run_fresh evs : ∀ s sts,
  fresh_handles s → run T API evs s = Some sts → Forall fresh_handles sts.
Proof.
  induction evs as [|ev evs IH]; intros s sts Hf Hrun; cbn in Hrun.
  - simplify_eq. constructor.
  - destruct (step T API ev s) as [[[] s'|]|] eqn:Hs; [|done..].
    pose proof (step_fresh _ _ _ Hf Hs) as Hf'. cbn in Hf'.
    destruct (run T API evs s') as [sts'|] eqn:Hr; [|done].
    cbn in Hrun. simplify_eq. constructor; [done|]. by eapply IH.
Qed.

End Effects.

Lemma initial_fresh : fresh_handles initial.
Proof. intros h x Hh. done. Qed.

(* Whatever happened since the component was mounted, setTimeout hands
   out a handle that is not in use. *)
Lemma reachable_fresh T API evs sts :
  run T API evs initial = Some sts → Forall fresh_handles sts.
Proof. apply run_fresh, initial_fresh. Qed.

(* The Render button gate *)

Section Gate.
Variable T : list StageEntry.
Variable API : string.

Lemma settle_spec o s :
  ∃ s', render_settle API o s = Return tt s'
        ∧ timers s' = timers (state_of (stopProgress false s))
        ∧ progressTimerRef s' = progressTimerRef s
        ∧ loading s' = false ∧ rendering s' = false ∧ awaiting s' = awaiting s.
Proof.
  pose proof (stop_spec true s) as H1. pose proof (stop_spec false s) as H0.
  destruct o as [filename download_url error|message]; unfold render_settle, bind.
  - destruct (truthy filename).
    + rewrite H1, H0. cbn. eexists. split; [done|]. done.
    + rewrite H0. cbn. eexists. split; [done|]. done.
  - rewrite H0. cbn. eexists. split; [done|]. done.
Qed.

Lemma step_ui t a s s' :
  ui_inv s → ui_action a = true →
  step T API (t, a) s = Some (Return tt s') → ui_inv s'.
Proof.
  intros (Htr & Hsz & Haw & Hidle) Ha Hs. unfold step in Hs.
  destruct (negb _); [done|].
  destruct a as [|success|h| |o]; try done; cbv beta iota zeta in Hs.
  - change (timers (with_now t s)) with (timers s) in Hs.
    destruct (timers s !! h) as [[cb due]|] eqn:Hh; [|done].
    destruct (due <=? t); [|done]. injection Hs as Hs.
    set (s2 := with_timers _ _) in *.
    pose proof (callback_effect T cb s2) as He. rewrite Hs in He. cbn in He.
    assert (He2 : timers s2 = ∅) by (by eapply tracked_delete_empty).
    destruct (timer_effect_tracked _ _ He He2) as [Htr' Hsz'].
    destruct He as (Hl & Ha' & _ & _).
    split_and!; try done.
    + rewrite Ha'. exact Haw.
    + rewrite Hl. intros Hlf. destruct (Hidle Hlf) as [E _]. by rewrite E in Hh.
  - change (loading (with_now t s)) with (loading s) in Hs.
    destruct (loading s) eqn:Hl.
    + simplify_eq.
      split_and!; [exact Htr|exact Hsz|exact Haw|cbn; by rewrite Hl].
    + destruct (Hidle eq_refl) as [He Haw0].
      unfold render_begin, bind, get in Hs. injection Hs as Hs.
      destruct (_ =? _)%nat.
      * unfold setStatus, modify in Hs. simplify_eq.
        split_and!; [exact Htr|exact Hsz|exact Haw|intros _; by split].
      * cbn [setLoading setRendering setVideoUrl setStatus modify] in Hs.
        set (s2 := with_status _ _) in *.
        pose proof (start_effect T s2) as Hef.
        destruct (startProgressAnimation T s2) as [[] s3|e s3]; [|done].
        cbn in Hs, Hef. unfold modify in Hs. simplify_eq.
        destruct (timer_effect_tracked _ _ Hef He) as [Htr' Hsz'].
        destruct Hef as (Hl3 & Ha3 & _ & _). cbn in Hl3, Ha3.
        split_and!; [exact Htr'|exact Hsz'|cbn; rewrite Ha3, Haw0; lia|].
        cbn. by rewrite Hl3.
  - change (awaiting (with_now t s)) with (awaiting s) in Hs.
    destruct (awaiting s) as [|k] eqn:Hk; [done|]. injection Hs as Hs.
    set (s2 := with_awaiting k (with_now t s)) in *.
    destruct (settle_spec o s2) as (s3 & Hs3 & Ht3 & _ & Hl3 & _ & Ha3).
    rewrite Hs in Hs3. simplify_eq.
    assert (Htr2 : tracked s2) by exact Htr.
    rewrite (stop_tracked false s2 Htr2) in Ht3.
    split_and!.
    + by apply tracked_empty.
    + rewrite Ht3, map_size_empty. lia.
    + rewrite Ha3. cbn. lia.
    + intros _. split; [done|]. rewrite Ha3. cbn. lia.
Qed.

Lemma run_ui evs : ∀ s sts,
  ui_inv s → Forall (λ ev : event, ui_action ev.2 = true) evs →
  run T API evs s = Some sts → Forall ui_inv sts.
Proof.
  induction evs as [|ev evs IH]; intros s sts Hi Hev Hrun; cbn in Hrun.
  - simplify_eq. constructor.
  - apply Forall_cons in Hev as [Ha Hev].
    destruct (step T API ev s) as [[[] s'|]|] eqn:Hs; [|done..].
    destruct ev as [t a].
    pose proof (step_ui _ _ _ _ Hi Ha Hs) as Hi'.
    destruct (run T API evs s') as [sts'|] eqn:Hr; [|done].
    cbn in Hrun. simplify_eq. constructor; [done|]. by eapply IH.
Qed.

End Gate.

Lemma initial_ui : ui_inv initial.
Proof.
  split_and!; [by apply tracked_empty|cbn; rewrite map_size_empty; lia|cbn; lia|done].
Qed.

(* With the Render button disabled while loading, the page never has
   more than one tick pending, and it is the tracked one. *)
Lemma page_keeps_one_chain T API evs sts :
  Forall (λ ev : event, ui_action ev.2 = true) evs →
  run T API evs initial = Some sts →
  Forall (λ s, tracked s ∧ (size (timers s) ≤ 1)%nat) sts.
Proof.
  intros Hev Hrun.
  eapply Forall_impl; [exact (run_ui T API evs initial sts initial_ui Hev Hrun)|].
  intros s (? & ? & _). by split.
Qed.

Lemma phase_single e r b s :
  phase [e] r b s → progress s = 0 ∧ stage s = label e ∧ stageIdx s r = 0%nat.
Proof.
  intros Hp. destruct Hp as [s h0 due e0 Ht Href Hi He Hpr Hst
                   |s h0 due e0 Ht Href Hi He Hpr Hst
                   |s h0 due c n st tl Ht Href Hc Hn Htl Hlt Hdue' Hpr Hst
                   |s e0 Ht He Hi Hpr Hst].
  - cbn in He. by simplify_eq.
  - apply lookup_lt_Some in He. cbn in He. lia.
  - apply lookup_lt_Some in Hn. cbn in Hn. lia.
  - cbn in Hi. assert (Hz : stageIdx s r = 0%nat) by lia.
    rewrite Hz in *. cbn in He. by simplify_eq.
Qed.

Lemma increasing_le T i j a b :
  increasing T → (i ≤ j)%nat → T !! i = Some a → T !! j = Some b → pct a <= pct b.
Proof.
  intros Hinc Hij Ha. revert b. induction j as [|j IH]; intros b Hb.
  - assert (i = 0%nat) as -> by lia. by simplify_eq.
  - destruct (decide (i = S j)) as [->|Hne]; [by simplify_eq|].
    destruct (T !! j) as [c|] eqn:Hc.
    + pose proof (increasing_adjacent _ _ _ _ Hinc Hc Hb).
      assert (pct a <= pct c) by (apply IH; [lia|done]). lia.
    + apply lookup_ge_None in Hc. apply lookup_lt_Some in Hb. lia.
Qed.

Lemma phase_le_last T r s el :
  increasing T → (2 ≤ length T)%nat → last T = Some el →
  phase T r false s →
  progress s <= pct el ∧ (timers s = ∅ → progress s = pct el).
Proof.
  intros Hinc Hlen Hl Hp. rewrite last_lookup in Hl.
  inversion Hp as [
                   |s' h0 due e Ht Href Hi He Hpr Hst
                   |s' h0 due c n st tl Ht Href Hc Hn Htl Hlt Hdue' Hpr Hst
                   |s' e Ht He Hi Hpr Hst]; subst.
  - split.
    + rewrite Hpr. eapply increasing_le; [done| |done..].
      apply lookup_lt_Some in He. lia.
    + intros E. rewrite E in Ht. symmetry in Ht. by apply map_non_empty_singleton in Ht.
  - split.
    + rewrite Hpr. pose proof (increasing_adjacent _ _ _ _ Hinc Hc Hn).
      etrans; [apply interp_bounds; lia|].
      eapply increasing_le; [done| |done..]. apply lookup_lt_Some in Hn. lia.
    + intros E. rewrite E in Ht. symmetry in Ht. by apply map_non_empty_singleton in Ht.
  - assert (Hidx : stageIdx s r = pred (length T)) by lia.
    rewrite <- Hidx in Hl. simplify_eq.
    destruct (stageIdx s r) eqn:E; [lia|]. rewrite Hpr. done.
Qed.

Section Reorder.
Context {A : Type}.
Implicit Types (l : list A) (x : A).

Lemma splice_delete d l : splice d 1 [] l = delete d l.
Proof. unfold splice. cbn. by rewrite Nat.add_1_r, delete_take_drop. Qed.

Lemma reorder_spec undefined d idx l x :
  l !! d = Some x → (idx < length l)%nat →
  reorder undefined d idx l = take idx (delete d l) ++ x :: drop idx (delete d l).
Proof.
  intros Hd Hidx. unfold reorder. rewrite splice_delete.
  rewrite (nth_lookup_Some _ _ _ _ Hd). unfold splice. cbn.
  by rewrite Nat.add_0_r.
Qed.

Lemma reorder_facts undefined d idx l x :
  l !! d = Some x → (idx < length l)%nat →
  reorder undefined d idx l ≡ₚ l
  ∧ length (reorder undefined d idx l) = length l
  ∧ reorder undefined d idx l !! idx = Some x
  ∧ delete idx (reorder undefined d idx l) = delete d l.
Proof.
  intros Hd Hidx. rewrite (reorder_spec _ _ _ _ _ Hd Hidx).
  pose proof (lookup_lt_Some _ _ _ Hd) as Hdlt.
  assert (Hlen : length (delete d l) = pred (length l)).
  { rewrite length_delete; [lia|]. by eexists. }
  assert (Htake : length (take idx (delete d l)) = idx).
  { rewrite length_take. lia. }
  split_and!.
  - rewrite <- Permutation_middle, take_drop. symmetry. by apply delete_Permutation.
  - rewrite length_app. cbn. rewrite Htake, length_drop. lia.
  - rewrite lookup_app_r by lia. by rewrite Htake, Nat.sub_diag.
  - rewrite delete_take_drop.
    rewrite take_app_length' by done.
    rewrite drop_app_ge by lia. rewrite Htake.
    replace (S idx - idx)%nat with 1%nat by lia. cbn. rewrite drop_0.
    apply take_drop.
Qed.
End Reorder.


(* One run: a start with no timer pending, then its timers *)

Section OneRun.
Variable T : list StageEntry.
Variable API : string.

Lemma fire_tracked t h s o :
  tracked s → step T API (t, Fire h) s = Some o → tracked (state_of o).
Proof.
  intros Htr Hs. unfold step in Hs.
  destruct (negb _); [done|]. cbv beta iota zeta in Hs.
  change (timers (with_now t s)) with (timers s) in Hs.
  destruct (timers s !! h) as [[cb due]|] eqn:Hh; [|done].
  destruct (due <=? t); [|done]. injection Hs as <-.
  eapply timer_effect_tracked; [apply callback_effect|].
  cbn. by eapply tracked_delete_empty.
Qed.

Lemma run_fires_tracked l : ∀ s sts,
  tracked s → run T API (fires l) s = Some sts → Forall tracked sts.
Proof.
  induction l as [|[t h] l IH]; intros s sts Htr Hrun.
  - cbn in Hrun. simplify_eq. constructor.
  - rewrite run_fires_cons in Hrun.
    destruct (step T API (t, Fire h) s) as [[[] s'|]|] eqn:Hs; [|done..].
    pose proof (fire_tracked _ _ _ _ Htr Hs) as Htr'. cbn in Htr'.
    destruct (run T API (fires l) s') as [sts'|] eqn:Hr; [|done].
    cbn in Hrun. simplify_eq. constructor; [done|]. by eapply IH.
Qed.

Lemma start_tracked s s1 :
  timers s = ∅ → startProgressAnimation T s = Return tt s1 → tracked s1.
Proof.
  intros Ht Hs. pose proof (start_effect T s) as He. rewrite Hs in He.
  by eapply timer_effect_tracked.
Qed.

Lemma no_timer_no_fire s t h : timers s = ∅ → step T API (t, Fire h) s = None.
Proof.
  intros E. unfold step. destruct (negb _); [done|].
  cbv beta iota zeta. change (timers (with_now t s)) with (timers s).
  by rewrite E.
Qed.

End OneRun.

(* The setInterval bar of the earlier component *)

Lemma legacy_on_interval_mono (T : list Legacy.Stg) (b : Legacy.Bar) :
  Sorted Z.lt (Legacy.stg_progress <$> T) →
  (∀ e, T !! 0%nat = Some e → 0 <= Legacy.stg_progress e) →
  (match Legacy.i b with
   | O => Legacy.bar_progress b = 0
   | S k => ∃ e, T !! k = Some e ∧ Legacy.bar_progress b = Legacy.stg_progress e
   end) →
  let b' := Legacy.on_interval T b in
  Legacy.bar_progress b <= Legacy.bar_progress b'
  ∧ match Legacy.i b' with
    | O => Legacy.bar_progress b' = 0
    | S k => ∃ e, T !! k = Some e ∧ Legacy.bar_progress b' = Legacy.stg_progress e
    end.
Proof.
  intros Hs H0 Hinv. cbn zeta. unfold Legacy.on_interval.
  destruct (Nat.ltb_spec (Legacy.i b) (length T)) as [Hlt|Hge]; [|by split].
  destruct (T !! Legacy.i b) as [e|] eqn:He; [|by split]. cbn.
  split; [|by exists e].
  destruct (Legacy.i b) as [|k] eqn:Hi.
  - rewrite Hinv. by apply H0.
  - destruct Hinv as (e0 & He0 & ->).
    assert (Hs' : Sorted Z.lt (Legacy.stg_progress <$> T)) by done.
    assert (Hadj : ∀ (l : list Z) j x y, Sorted Z.lt l →
              l !! j = Some x → l !! S j = Some y → x < y).
    { clear. induction l as [|a l IH]; intros j x y HS Hx Hy; [done|].
      apply Sorted_inv in HS as [HS Hd]. destruct j as [|j]; cbn in *.
      - destruct l as [|b l]; simplify_eq/=. by apply HdRel_inv in Hd.
      - eauto. }
    apply Z.lt_le_incl. apply (Hadj _ k _ _ Hs'); rewrite list_lookup_fmap.
    + by rewrite He0.
    + by rewrite He.
Qed.

(** X9: the setInterval bar of the earlier component never goes back:
    for a table with increasing progress values that does not start
    below 0, the progress shown at render start and after each interval
    is non-decreasing. *)
Lemma legacy_interval_nondecreasing (T : list Legacy.Stg) (n : nat) :
  Sorted Z.lt (Legacy.stg_progress <$> T) →
  (∀ e, T !! 0%nat = Some e → 0 <= Legacy.stg_progress e) →
  nondecreasing (Legacy.bar_progress <$>
                   Legacy.render_begin :: Legacy.intervals T n Legacy.render_begin).
Proof.
  intros Hs H0.
  assert (Hgen : ∀ n b,
    (match Legacy.i b with
     | O => Legacy.bar_progress b = 0
     | S k => ∃ e, T !! k = Some e ∧ Legacy.bar_progress b = Legacy.stg_progress e
     end) →
    nondecreasing (Legacy.bar_progress <$> b :: Legacy.intervals T n b)).
  { clear n. induction n as [|n IH]; intros b Hb.
    - apply nondecreasing_singleton.
    - destruct (legacy_on_interval_mono T b Hs H0 Hb) as [Hle Hb'].
      cbn. apply nondecreasing_cons; [done|]. by apply IH. }
  by apply Hgen.
Qed.

(* ===================================================================== *)
(* The properties of the specification                                   *)
(* ===================================================================== *)

(** C1: for every non-empty stage table with strictly increasing
    thresholds, startProgressAnimation() on a component with no timer
    pending returns, and the progress values left by the successive
    timer callbacks of the run are non-decreasing, whatever the times
    at which the timers fire; with a first threshold that is not
    negative this includes the 0 that start itself displays.  No
    stopProgress occurs in the run. *)
Theorem progress_never_regresses T API s0 :
  T ≠ [] → increasing T → timers s0 = ∅ →
  ∃ s1, startProgressAnimation T s0 = Return tt s1
        ∧ ∀ ticks sts,
            run T API (fires ticks) s1 = Some sts →
            nondecreasing (progress <$> sts)
            ∧ ((∀ e, T !! 0%nat = Some e → 0 <= pct e) →
               nondecreasing (progress <$> s1 :: sts)).
Proof.
  intros HT Hinc Ht.
  destruct (start_phase T s0 Ht HT) as (s1 & Hs1 & Hp & _).
  exists s1. split; [exact Hs1|]. intros ticks sts Hrun.
  destruct ticks as [|[t h] l].
  - cbn in Hrun. simplify_eq. split; [apply nondecreasing_nil|].
    intros _. apply nondecreasing_singleton.
  - rewrite run_fires_cons in Hrun.
    destruct (step T API (t, Fire h) s1) as [o|] eqn:Hs; [|done].
    destruct (fire_phase T API _ _ _ _ _ _ Hp Hs) as (s' & -> & Hp' & _ & _ & _ & Hle).
    destruct (run T API (fires l) s') as [sts'|] eqn:Hr; [|done].
    cbn in Hrun. simplify_eq.
    destruct (run_fires_phase T API _ _ _ _ _ Hp' Hr) as (_ & _ & Hnd).
    split; [apply Hnd; [done|by left]|].
    intros H0. cbn. apply nondecreasing_cons; [apply Hle; [done|by right]|].
    apply Hnd; [done|by left].
Qed.

Lemma progress_never_regresses_witness :
  nondecreasing (progress <$> late_states)
  ∧ nondecreasing (progress <$> started STAGES :: late_states).
Proof.
  destruct (progress_never_regresses STAGES "" initial) as (s1 & Hs1 & Hrun).
  - done.
  - unfold increasing. compute_done.
  - reflexivity.
  - injection Hs1 as <-.
    destruct (Hrun late_ticks late_states) as [H1 H2]; [vm_compute; reflexivity|].
    split; [exact H1|]. apply H2. intros e He. vm_compute in He.
    injection He as <-. vm_compute. discriminate.
Defined.

(** C2 (as amended): startProgressAnimation() cancels nothing.  Every
    timer that was pending before the call is still pending after it,
    and one new timer, the tick of the new run, is added; so a call
    made while a run is active leaves the old chain alive next to the
    new one.  Only a call made with no timer pending leaves exactly one
    chain, the one progressTimerRef tracks. *)
Theorem start_keeps_prior_ticks T s :
  T ≠ [] → fresh_handles s →
  ∃ s1, startProgressAnimation T s = Return tt s1
        ∧ (∀ h x, timers s !! h = Some x → timers s1 !! h = Some x)
        ∧ timers s1 !! nextTimer s = Some (Tick (nextRun s), now s + 200)
        ∧ size (timers s1) = S (size (timers s))
        ∧ (timers s = ∅ → tracked s1).
Proof.
  intros HT Hfresh. destruct (T !! 0%nat) as [e|] eqn:He.
  2:{ apply lookup_ge_None in He. exfalso. apply HT.
      by apply length_zero_iff_nil, Nat.le_0_r. }
  assert (Hnone : timers s !! nextTimer s = None).
  { destruct (timers s !! nextTimer s) as [x|] eqn:E; [|done].
    apply Hfresh in E. lia. }
  eexists. split; [by apply (start_ok _ e)|]. cbn. split_and!.
  - intros h x Hh. rewrite lookup_insert_ne; [done|]. intros <-. congruence.
  - by rewrite lookup_insert_eq.
  - by rewrite map_size_insert_None.
  - intros E. by apply (tracked_schedule _ _
      (with_stage (label e) (with_progress 0
        (with_stageIdx (<[nextRun s:=0%nat]> (stageIdx s))
           (with_nextRun (S (nextRun s)) (with_renderStartRef (Some (now s)) s)))))).
Qed.

Lemma start_keeps_prior_ticks_witness :
  ∃ s1, startProgressAnimation STAGES (started STAGES) = Return tt s1
        ∧ timers s1 !! 1%positive = Some (Tick 0, 200)
        ∧ timers s1 !! 2%positive = Some (Tick 1, 200)
        ∧ size (timers s1) = 2%nat.
Proof.
  destruct (start_keeps_prior_ticks STAGES (started STAGES))
    as (s1 & Hs1 & Hold & Hnew & Hsize & _).
  - done.
  - unfold fresh_handles. compute_done.
  - exists s1. split; [exact Hs1|]. split_and!.
    + apply Hold. reflexivity.
    + exact Hnew.
    + exact Hsize.
Defined.

(** C2 (counterexample): start, start again 100 ms later.  Two ticks
    are pending after the second call, the first run's among them; that
    tick then fires and sets progress, and the interleaved chains make
    the displayed value go 5, 6, 5. *)
Lemma double_start_leaves_two_chains :
  ∃ s1 s2 s3 s4 s5,
    run STAGES "" double_start initial = Some [s1; s2; s3; s4; s5]
    ∧ size (timers s1) = 1%nat
    ∧ size (timers s2) = 2%nat
    ∧ timers s2 !! 1%positive = Some (Tick 0, 200)
    ∧ timers s2 !! 2%positive = Some (Tick 1, 300)
    ∧ progress <$> [s1; s2; s3; s4; s5] = [0; 0; 5; 6; 5].
Proof. do 5 eexists. split; [vm_compute; reflexivity|]. vm_compute. done. Qed.

(** C3: in every state, whatever stage the timeline reached and also
    right after start, stopProgress(true) returns with progress 100
    and the completion label. *)
Theorem stop_true_shows_100 (s : State) :
  ∃ s', stopProgress true s = Return tt s'
        ∧ progress s' = 100 ∧ stage s' = "Complete! ✅".
Proof. rewrite stop_spec. eexists. split; [done|]. done. Qed.

(** C4: in every state stopProgress(false) returns with progress 0 and
    the empty stage label, and no tick left pending when the pending
    tick was the tracked one; on each failure path of render() (no
    filename in the response, or an exception) the component is idle
    afterwards: progress 0, stage empty, rendering and loading false. *)
Theorem stop_false_returns_to_idle API (s : State) :
  (∃ s', stopProgress false s = Return tt s'
         ∧ progress s' = 0 ∧ stage s' = ""
         ∧ (tracked s → timers s' = ∅))
  ∧ (∀ o, failed o = true →
       ∃ s', render_settle API o s = Return tt s'
             ∧ progress s' = 0 ∧ stage s' = ""
             ∧ rendering s' = false ∧ loading s' = false
             ∧ (tracked s → timers s' = ∅)).
Proof.
  split.
  - pose proof (stop_tracked false s) as He. rewrite stop_spec in *.
    eexists. split; [done|]. split_and!; done.
  - intros o Ho. pose proof (stop_tracked false s) as He.
    destruct o as [filename download_url error|message]; cbn in Ho.
    + apply negb_true_iff in Ho. unfold render_settle, bind. rewrite Ho.
      rewrite stop_spec in *. cbn. eexists. split; [done|]. split_and!; done.
    + unfold render_settle, bind.
      rewrite stop_spec in *. cbn. eexists. split; [done|]. split_and!; done.
Qed.

Lemma stop_false_returns_to_idle_witness :
  ∃ s', render_settle "" (Rejected "Failed to fetch") (started STAGES) = Return tt s'
        ∧ progress s' = 0 ∧ stage s' = ""
        ∧ rendering s' = false ∧ loading s' = false ∧ timers s' = ∅.
Proof.
  destruct (stop_false_returns_to_idle "" (started STAGES)) as [_ H].
  destruct (H (Rejected "Failed to fetch") eq_refl) as (s' & Hs & Hp & Hst & Hr & Hl & Ht).
  exists s'. split_and!; try done.
  apply Ht. unfold tracked. compute_done.
Defined.

(** C5 (counterexample): the worked example with timers that are never
    late.  500 ms after start the bar shows 32, not about 5; at 1000 ms
    it shows 82 and the label is still "A"; at 2000 ms it shows 100
    with label "B", although stopProgress was never called. *)
Lemma worked_example_values :
  ∃ s500 s1000 s2000,
    advance two_stage "" 30 500 (started two_stage) = Some s500
    ∧ advance two_stage "" 30 1000 (started two_stage) = Some s1000
    ∧ advance two_stage "" 30 2000 (started two_stage) = Some s2000
    ∧ (progress s500, stage s500) = (32, "A")
    ∧ (progress s1000, stage s1000) = (82, "A")
    ∧ (progress s2000, stage s2000) = (100, "B").
Proof. do 3 eexists. split_and!; vm_compute; reflexivity. Qed.

(** C5 (as amended): with the two-entry table and timers that are never
    late, the bar shows 0 and "A" during the first 200 ms; from then on,
    at each 80 ms tick, f = min(elapsed / 1000, 1) for the time elapsed
    since the first tick and the bar shows round(10 + (100 - 10) * f)
    with label "A" (32 at 500 ms, 82 at 1000 ms); from the tick at which
    f reaches 1 (1240 ms) it shows 100 with label "B", up to 2000 ms. *)
Theorem worked_example_timeline API t :
  0 <= t <= 2000 →
  ∃ s, advance two_stage API 30 t (started two_stage) = Some s
       ∧ (progress s, stage s) = worked_example t.
Proof.
  intros HT.
  set (ok := λ t, match advance two_stage API 30 t (started two_stage) with
                  | Some s => (progress s =? (worked_example t).1)
                              && String.eqb (stage s) (worked_example t).2
                  | None => false
                  end).
  assert (Hall : forallb ok (seqZ 0 2001) = true) by (vm_compute; reflexivity).
  rewrite forallb_forall in Hall.
  assert (Hin : In t (seqZ 0 2001)).
  { apply list_elem_of_In, elem_of_seqZ. lia. }
  specialize (Hall t Hin). unfold ok in Hall.
  destruct (advance two_stage API 30 t (started two_stage)) as [s|]; [|done].
  apply andb_true_iff in Hall as [H1 H2].
  apply Z.eqb_eq in H1. apply String.eqb_eq in H2.
  exists s. split; [done|]. destruct (worked_example t). cbn in *. congruence.
Qed.

Lemma worked_example_timeline_witness :
  ∃ s, advance two_stage "" 30 500 (started two_stage) = Some s
       ∧ (progress s, stage s) = (32, "A").
Proof.
  destruct (worked_example_timeline "" 500) as (s & Hs & Hv); [lia|].
  exists s. split; [exact Hs|]. rewrite Hv. vm_compute. reflexivity.
Defined.

(** C6 (counterexample): the program's table does not satisfy the
    invariant as worded: its last threshold is not 100. *)
Lemma STAGES_does_not_end_at_100 : ¬ table_invariant STAGES.
Proof. intros (_ & _ & _ & e & He & H100). vm_compute in He. by simplify_eq. Qed.

(** C6 (as amended): the program's fixed table is non-empty, its
    thresholds are strictly increasing, the first is 5 (above 0) and the
    last is 96, below 100; the table of the earlier component likewise
    runs from 10 to 95. *)
Theorem tables_end_below_100 :
  STAGES ≠ [] ∧ increasing STAGES
  ∧ (∃ e, head STAGES = Some e ∧ pct e = 5 ∧ 0 < pct e)
  ∧ (∃ e, last STAGES = Some e ∧ pct e = 96 ∧ pct e < 100)
  ∧ Sorted Z.lt (Legacy.stg_progress <$> Legacy.stgs)
  ∧ head (Legacy.stg_progress <$> Legacy.stgs) = Some 10
  ∧ last (Legacy.stg_progress <$> Legacy.stgs) = Some 95.
Proof.
  split_and!; [done|unfold increasing; compute_done| | |compute_done|done|done];
    eexists; (split; [reflexivity|done]).
Qed.

(** C7 (counterexample): the two-entry table satisfies the invariant as
    worded, and its ticks alone bring the bar to 100; and with the
    program's table the bar comes to rest at 96, the last threshold,
    not at 88, the last but one. *)
Lemma two_stage_ticks_reach_100 :
  table_invariant two_stage
  ∧ (∃ s, advance two_stage "" 30 2000 (started two_stage) = Some s
          ∧ timers s = ∅ ∧ progress s = 100)
  ∧ (∃ s, advance STAGES "" 600 60000 (started STAGES) = Some s
          ∧ timers s = ∅ ∧ progress s = 96).
Proof.
  split_and!.
  - split_and!; [done|unfold increasing; compute_done| |];
      eexists; (split; [reflexivity|done]).
  - eexists. split; [vm_compute; reflexivity|]. split; [|reflexivity].
    apply map_empty. intros i. reflexivity.
  - eexists. split; [vm_compute; reflexivity|]. split; [|reflexivity].
    apply map_empty. intros i. reflexivity.
Qed.

(** C7 (as amended): for every table with strictly increasing
    thresholds and at least two entries, a run makes a bounded number
    of ticks, whatever their timing; the values the ticks display never
    exceed the last threshold; once no tick is pending any more the bar
    rests at the last threshold and no tick can fire; so ticks alone
    reach 100 only if the table ends at 100, and never with a table
    that ends below 100, like the program's. *)
Theorem ticks_hold_at_last_threshold T API s0 el :
  increasing T → (2 ≤ length T)%nat → last T = Some el →
  timers s0 = ∅ →
  ∃ s1, startProgressAnimation T s0 = Return tt s1
        ∧ ∀ ticks sts,
            run T API (fires ticks) s1 = Some sts →
            (length ticks ≤ fires_needed T)%nat
            ∧ Forall (λ s, progress s <= pct el
                           ∧ (timers s = ∅ →
                              progress s = pct el
                              ∧ ∀ t h, step T API (t, Fire h) s = None)) sts
            ∧ (pct el < 100 → Forall (λ s, progress s ≠ 100) (s1 :: sts)).
Proof.
  intros Hinc Hlen Hl Ht.
  destruct (start_phase T s0 Ht) as (s1 & Hs1 & Hp & Hp0 & _ & Hpot).
  { intros ->. cbn in Hlen. lia. }
  exists s1. split; [exact Hs1|]. intros ticks sts Hrun.
  destruct (run_fires_phase T API _ _ _ _ _ Hp Hrun) as (Hall & Hbound & _).
  assert (HF : Forall (λ s, progress s <= pct el
               ∧ (timers s = ∅ →
                  progress s = pct el ∧ ∀ t h, step T API (t, Fire h) s = None)) sts).
  { eapply Forall_impl; [exact Hall|]. intros s Hps. cbn beta.
    destruct (phase_le_last T _ s el Hinc Hlen Hl Hps) as [Hle Heq].
    split; [done|]. intros E. split; [by apply Heq|].
    intros t h. by apply no_timer_no_fire. }
  split_and!; [by rewrite <- Hpot|done|]. intros H100. constructor; [lia|].
  eapply Forall_impl; [exact HF|]. cbn beta. intros s [? _]. lia.
Qed.

Lemma ticks_hold_at_last_threshold_witness :
  (length late_ticks ≤ fires_needed STAGES)%nat
  ∧ Forall (λ s, progress s <= 96) late_states
  ∧ Forall (λ s, progress s ≠ 100) (started STAGES :: late_states).
Proof.
  destruct (ticks_hold_at_last_threshold STAGES "" initial
              (mkStage 96 "Finalizing..." 3000)) as (s1 & Hs1 & Hrun).
  - unfold increasing. compute_done.
  - cbn. lia.
  - reflexivity.
  - reflexivity.
  - injection Hs1 as <-.
    destruct (Hrun late_ticks late_states) as (H0 & H1 & H2); [vm_compute; reflexivity|].
    split_and!.
    + exact H0.
    + eapply Forall_impl; [exact H1|]. cbn. intros s [H _]. exact H.
    + apply H2. cbn. lia.
Defined.

(** C8: in a run started with no timer pending, whenever
    stopProgress(success) is called, be it right after start or after
    any number of ticks, it returns with the terminal value displayed
    and with no timer pending: the tick scheduled before the call has
    been removed from the timer table, so no tick can fire afterwards
    and overwrite the terminal state. *)
Theorem stop_cancels_pending_tick T API s0 success :
  T ≠ [] → timers s0 = ∅ →
  ∃ s1, startProgressAnimation T s0 = Return tt s1
        ∧ ∀ ticks sts s,
            run T API (fires ticks) s1 = Some sts →
            last (s1 :: sts) = Some s →
            ∃ s', stopProgress success s = Return tt s'
                  ∧ progress s' = (if success then 100 else 0)
                  ∧ stage s' = (if success then "Complete! ✅" else "")
                  ∧ timers s' = ∅
                  ∧ (∀ t h, step T API (t, Fire h) s' = None)
                  ∧ (∀ later sts',
                       run T API (fires later) s' = Some sts' → later = []).
Proof.
  intros HT Ht.
  destruct (start_phase T s0 Ht HT) as (s1 & Hs1 & _).
  exists s1. split; [exact Hs1|]. intros ticks sts s Hrun Hlast.
  pose proof (start_tracked T s0 s1 Ht Hs1) as Htr1.
  pose proof (run_fires_tracked T API _ _ _ Htr1 Hrun) as Hall.
  assert (Htr : tracked s).
  { apply last_Some_elem_of in Hlast. apply elem_of_cons in Hlast as [->|Hin]; [done|].
    by eapply Forall_forall in Hall. }
  pose proof (stop_tracked success s Htr) as Hempty.
  destruct (stopProgress success s) as [[] s'|] eqn:Hstop.
  2:{ by rewrite stop_spec in Hstop. }
  cbn in Hempty. exists s'. split; [done|].
  pose proof (no_timer_no_fire T API s') as Hno.
  rewrite stop_spec in Hstop.
  split_and!; [| |done|by auto|].
  - simplify_eq. by destruct success.
  - simplify_eq. by destruct success.
  - intros [|[t h] later] sts' Hr; [done|].
    rewrite run_fires_cons in Hr. by rewrite Hno in Hr.
Qed.

Lemma stop_cancels_pending_tick_witness :
  ∃ s s', last (started STAGES :: late_states) = Some s
        ∧ stopProgress false s = Return tt s'
        ∧ progress s' = 0
        ∧ timers s' = ∅.
Proof.
  destruct (stop_cancels_pending_tick STAGES "" initial false)
    as (s1 & Hs1 & Hrun).
  - done.
  - reflexivity.
  - injection Hs1 as <-.
    destruct (Hrun late_ticks late_states
                (default initial (last (started STAGES :: late_states))))
      as (s' & Hs & Hp & _ & Ht & _).
    + vm_compute. reflexivity.
    + vm_compute. reflexivity.
    + eexists _, s'. split; [vm_compute; reflexivity|]. split_and!; done.
Defined.

(** C9: with a table of exactly one entry, startProgressAnimation()
    returns normally, and every timer callback of the run returns
    normally as well; the bar stays at 0 under the entry's label. *)
Theorem single_entry_table_never_throws e API s0 :
  timers s0 = ∅ →
  ∃ s1, startProgressAnimation [e] s0 = Return tt s1
        ∧ ∀ ticks sts s t h o,
            run [e] API (fires ticks) s1 = Some sts →
            last (s1 :: sts) = Some s →
            step [e] API (t, Fire h) s = Some o →
            ∃ s', o = Return tt s' ∧ progress s' = 0 ∧ stage s' = label e.
Proof.
  intros Ht.
  destruct (start_phase [e] s0 Ht) as (s1 & Hs1 & Hp & _); [done|].
  exists s1. split; [done|].
  intros ticks sts s t h o Hrun Hlast Hstep.
  destruct (run_fires_phase [e] API _ _ _ _ _ Hp Hrun) as [Hall _].
  assert (Hps : ∃ b, phase [e] (nextRun s0) b s).
  { apply last_Some_elem_of in Hlast. apply elem_of_cons in Hlast as [->|Hin]; [by eexists|].
    exists false. by eapply Forall_forall in Hall. }
  destruct Hps as [b Hps].
  destruct (fire_phase [e] API _ _ _ _ _ _ Hps Hstep) as (s' & -> & Hp' & _).
  exists s'. split; [done|]. by apply phase_single in Hp' as (? & ? & _).
Qed.

Lemma single_entry_table_never_throws_witness :
  ∃ s1 s2, startProgressAnimation [mkStage 50 "Rendering..." 1000] initial = Return tt s1
        ∧ step [mkStage 50 "Rendering..." 1000] "" (200, Fire 1%positive) s1
          = Some (Return tt s2)
        ∧ progress s2 = 0 ∧ stage s2 = "Rendering...".
Proof.
  destruct (single_entry_table_never_throws (mkStage 50 "Rendering..." 1000) "" initial)
    as (s1 & Hs1 & Hticks); [reflexivity|].
  destruct (Hticks [] [] s1 200 1%positive
              (default (Return tt s1)
                 (step [mkStage 50 "Rendering..." 1000] "" (200, Fire 1%positive) s1)))
    as (s2 & Ho & Hp & Hst).
  - reflexivity.
  - reflexivity.
  - injection Hs1 as <-. vm_compute. reflexivity.
  - exists s1, s2. split; [exact Hs1|]. split_and!; [|exact Hp|exact Hst].
    rewrite <- Ho. injection Hs1 as <-. vm_compute. reflexivity.
Defined.

(** C10: for every scenes list and in-bounds indices draggedIdx and idx
    that differ, dragOver returns with a permutation of the list of the
    same length, in which the dragged scene sits at position idx and
    the other scenes keep their order; draggedIdx becomes idx. *)
Theorem dragOver_permutes_scenes (s : State) (d idx : nat) (x : option Scene) :
  draggedIdx s = Some d → d ≠ idx →
  scenes s !! d = Some x → (idx < length (scenes s))%nat →
  ∃ s', dragOver idx s = Return tt s'
        ∧ scenes s' ≡ₚ scenes s
        ∧ length (scenes s') = length (scenes s)
        ∧ scenes s' !! idx = Some x
        ∧ delete idx (scenes s') = delete d (scenes s)
        ∧ draggedIdx s' = Some idx.
Proof.
  intros Hdr Hne Hd Hidx. unfold dragOver, bind, get. rewrite Hdr.
  destruct (Nat.eqb_spec d idx) as [|_]; [done|].
  eexists. split; [done|]. cbn.
  destruct (reorder_facts None d idx (scenes s) x Hd Hidx) as (?&?&?&?).
  split_and!; done.
Qed.

Lemma dragOver_permutes_scenes_witness :
  ∃ s', dragOver 2 dragging_first = Return tt s'
        ∧ scenes s' ≡ₚ three_scenes
        ∧ scenes s' !! 2%nat = three_scenes !! 0%nat
        ∧ draggedIdx s' = Some 2%nat.
Proof.
  destruct (dragOver_permutes_scenes dragging_first 0 2
              (Some (mkScene "scene_1" "Intro" "" 5 "" "")))
    as (s' & Hs & Hperm & _ & Hat & _ & Hdr).
  - reflexivity.
  - lia.
  - reflexivity.
  - cbn. lia.
  - exists s'. split_and!; done.
Defined.

(* ===================================================================== *)
(* Further properties of the component                                   *)
(* ===================================================================== *)

Section Frame.
Variable T : list StageEntry.
Variable API : string.

Lemma same_page_refl s : same_page s s.
Proof. by repeat split. Qed.

Lemma same_page_trans s1 s2 s3 : same_page s1 s2 → same_page s2 s3 → same_page s1 s3.
Proof.
  unfold same_page. intros (?&?&?&?&?&?&?&?&?) (?&?&?&?&?&?&?&?&?).
  repeat split; congruence.
Qed.

Lemma callback_frame cb s : same_page s (state_of (run_callback T cb s)).
Proof.
  destruct cb as [r|r [c|] [n|] st]; cbn [run_callback].
  - unfold tick, bind, get_stageIdx.
    destruct (_ <=? _); [apply same_page_refl|].
    unfold Date_now at 1. cbn beta iota.
    destruct (T !! stageIdx s r) as [c|] eqn:Hc; [|apply same_page_refl].
    destruct (T !! S (stageIdx s r)) as [n|] eqn:Hn; [|apply same_page_refl].
    rewrite interpolate_running by (rewrite Z.sub_diag; lia).
    by repeat split.
  - destruct (Z_lt_le_dec (now s - st) (Z.pos (ms c))) as [Hr|Hr].
    + rewrite interpolate_running by done. by repeat split.
    + destruct (T !! S (stageIdx s r)) as [e'|] eqn:He.
      * rewrite (interpolate_done T r c n st s e') by done. by repeat split.
      * unfold interpolate, bind, Date_now, prop, ret;
          cbn -[Math_round Math_min Qplus Qmult Qminus Qdiv inject_Z Qlt_le_dec].
        destruct (Qlt_le_dec _ _) as [Hq|Hq].
        { apply (proj1 (frac_lt_1 _ _)) in Hq. lia. }
        unfold get_stageIdx; cbn -[Math_round Math_min Qplus Qmult Qminus Qdiv inject_Z Qlt_le_dec].
        destruct (_ <? _); [rewrite He|]; by repeat split.
  - apply same_page_refl.
  - apply same_page_refl.
  - apply same_page_refl.
Qed.

Lemma fire_frame t h s o :
  step T API (t, Fire h) s = Some o → same_page s (state_of o).
Proof.
  intros Hs. unfold step in Hs. destruct (negb _); [done|].
  cbv beta iota zeta in Hs. change (timers (with_now t s)) with (timers s) in Hs.
  destruct (timers s !! h) as [[cb due]|]; [|done].
  destruct (due <=? t); [|done]. injection Hs as <-.
  exact (callback_frame cb (with_timers (delete h (timers s)) (with_now t s))).
Qed.

Lemma run_fires_frame ticks : ∀ s sts,
  run T API (fires ticks) s = Some sts → Forall (same_page s) sts.
Proof.
  induction ticks as [|[t h] l IH]; intros s sts Hrun.
  - cbn in Hrun. simplify_eq. constructor.
  - rewrite run_fires_cons in Hrun.
    destruct (step T API (t, Fire h) s) as [[[] s'|]|] eqn:Hs; [|done..].
    pose proof (fire_frame _ _ _ _ Hs) as Hf. cbn in Hf.
    destruct (run T API (fires l) s') as [sts'|] eqn:Hr; [|done].
    cbn in Hrun. simplify_eq. constructor; [done|].
    eapply Forall_impl; [by eapply IH|]. intros x. by apply same_page_trans.
Qed.
End Frame.

(** X1: the timer callbacks of the progress driver write the bar and
    nothing else: whatever timers fire and whenever, the scenes, the
    dragged index, the status line, the video link and the loading and
    rendering flags stay as they were. *)
Theorem ticks_touch_only_the_bar T API ticks s sts :
  run T API (fires ticks) s = Some sts →
  Forall (λ s', scenes s' = scenes s ∧ draggedIdx s' = draggedIdx s
                ∧ status s' = status s ∧ videoUrl s' = videoUrl s
                ∧ loading s' = loading s ∧ rendering s' = rendering s) sts.
Proof.
  intros Hrun. eapply Forall_impl; [by eapply run_fires_frame|].
  intros s' (?&?&?&?&?&?&_). by repeat split.
Qed.

Lemma ticks_touch_only_the_bar_witness :
  Forall (λ s', scenes s' = [] ∧ status s' = "" ∧ loading s' = false) late_states.
Proof.
  eapply Forall_impl.
  - apply (ticks_touch_only_the_bar STAGES "" late_ticks (started STAGES)).
    vm_compute. reflexivity.
  - intros s' (H1 & _ & H3 & _ & H5 & _). split_and!; assumption.
Defined.

(** X2: two calls of stopProgress in a row leave the component exactly
    as the second call alone would: the timer is cancelled once and the
    bar shows what the second argument asks for. *)
Theorem last_stop_wins (first second : bool) (s : State) :
  (stopProgress first ;; stopProgress second)%js s = stopProgress second s.
Proof.
  unfold bind. rewrite (stop_spec first s). rewrite !stop_spec. cbn.
  destruct (progressTimerRef s) as [h|]; [|by destruct first, second].
  f_equal. rewrite delete_delete_eq. by destruct first, second.
Qed.


Section Cycle.
Variable T : list StageEntry.
Variable API : string.

Lemma run_cons ev evs s :
  run T API (ev :: evs) s
  = match step T API ev s with
    | Some (Return _ s') => (s' ::.) <$> run T API evs s'
    | _ => None
    end.
Proof. reflexivity. Qed.

Lemma run_app evs1 : ∀ evs2 s sts,
  run T API (evs1 ++ evs2) s = Some sts →
  ∃ sts1 sts2 s1, run T API evs1 s = Some sts1 ∧ last (s :: sts1) = Some s1
                  ∧ run T API evs2 s1 = Some sts2 ∧ sts = sts1 ++ sts2.
Proof.
  induction evs1 as [|ev evs1 IH]; intros evs2 s sts Hrun.
  - exists [], sts, s. by repeat split.
  - change ((ev :: evs1) ++ evs2) with (ev :: (evs1 ++ evs2)) in Hrun.
    rewrite run_cons in Hrun. rewrite run_cons.
    destruct (step T API ev s) as [[[] s'|]|]; [|done..].
    destruct (run T API (evs1 ++ evs2) s') as [sts'|] eqn:Hr; [|done].
    cbn in Hrun. simplify_eq.
    destruct (IH _ _ _ Hr) as (sts1 & sts2 & s1 & H1 & Hl & H2 & ->).
    exists (s' :: sts1), sts2, s1. rewrite H1. cbn. by repeat split.
Qed.

Lemma start_frame s :
  let s' := state_of (startProgressAnimation T s) in
  scenes s' = scenes s ∧ videoUrl s' = videoUrl s ∧ status s' = status s
  ∧ loading s' = loading s ∧ rendering s' = rendering s
  ∧ draggedIdx s' = draggedIdx s.
Proof.
  cbn zeta. destruct (T !! 0%nat) as [e|] eqn:He.
  - rewrite (start_ok T e s He). cbn. by repeat split.
  - unfold startProgressAnimation, bind, Date_now, modify, get. cbn.
    rewrite He. cbn. by repeat split.
Qed.

Lemma click_render_starts t s s1 :
  loading s = false → timers s = ∅ → awaiting s = 0%nat → scenes s ≠ [] →
  step T API (t, ClickRender) s = Some (Return tt s1) →
  tracked s1 ∧ awaiting s1 = 1%nat ∧ videoUrl s1 = None ∧ scenes s1 = scenes s.
Proof.
  intros Hl Ht Ha Hsc Hs. unfold step in Hs. destruct (negb _); [discriminate|].
  cbv beta iota zeta in Hs. change (loading (with_now t s)) with (loading s) in Hs.
  rewrite Hl in Hs. injection Hs as Hs.
  unfold render_begin, bind, get in Hs.
  change (scenes (with_now t s)) with (scenes s) in Hs.
  destruct (scenes s) as [|x l] eqn:E; [exfalso; by apply Hsc|].
  cbn [length Nat.eqb] in Hs.
  cbn [setLoading setRendering setVideoUrl setStatus modify] in Hs.
  set (s2 := with_status _ _) in *.
  assert (Ht2 : timers s2 = ∅) by exact Ht.
  assert (Ha2 : awaiting s2 = 0%nat) by exact Ha.
  assert (Hv2 : videoUrl s2 = None) by reflexivity.
  assert (Hsc2 : scenes s2 = x :: l) by exact E.
  clearbody s2.
  pose proof (start_effect T s2) as Hef.
  pose proof (start_frame s2) as Hfr. cbn zeta in Hfr.
  destruct (startProgressAnimation T s2) as [[] s3|m s3]; [|discriminate].
  cbn in Hef, Hfr. unfold modify in Hs. injection Hs as <-.
  destruct (timer_effect_tracked _ _ Hef Ht2) as [Htr3 _].
  destruct Hef as (_ & Ha3 & _). destruct Hfr as (Hsc3 & Hv3 & _).
  split_and!.
  - exact Htr3.
  - cbn. by rewrite Ha3, Ha2.
  - cbn. by rewrite Hv3.
  - cbn. by rewrite Hsc3.
Qed.

End Cycle.

(** X3: a click on Render on an idle page with at least one scene,
    then any timers of the bar that fire and return, then the reply:
    the page ends settled.  The bar, the stage label, the video link
    and the status are those of the reply (100 and the link on success,
    0 and no link on failure or exception), loading and rendering are
    off, no timer is pending, no request is waiting, and the scenes are
    untouched. *)
Theorem render_cycle_ends_settled T API s0 t0 ticks t1 o sts s' :
  loading s0 = false → timers s0 = ∅ → awaiting s0 = 0%nat → scenes s0 ≠ [] →
  run T API ((t0, ClickRender) :: fires ticks ++ [(t1, Settle o)]) s0 = Some sts →
  last sts = Some s' →
  (progress s', stage s', videoUrl s', status s') = render_result API o
  ∧ loading s' = false ∧ rendering s' = false
  ∧ timers s' = ∅ ∧ awaiting s' = 0%nat
  ∧ scenes s' = scenes s0.
Proof.
  intros Hl Ht Ha Hsc Hrun Hlast.
  rewrite run_cons in Hrun.
  destruct (step T API (t0, ClickRender) s0) as [[[] s1|]|] eqn:Hclick; [|discriminate..].
  destruct (click_render_starts T API _ _ _ Hl Ht Ha Hsc Hclick)
    as (Htr1 & Ha1 & Hv1 & Hsc1).
  clear Hclick.
  destruct (run T API (fires ticks ++ [(t1, Settle o)]) s1) as [sts'|] eqn:Hr; [|discriminate].
  cbn in Hrun. injection Hrun as <-.
  destruct (run_app T API _ _ _ _ Hr) as (sts1 & sts2 & s2 & Hticks & Hl2 & Hsettle & ->).
  pose proof (run_fires_tracked T API _ _ _ Htr1 Hticks) as Htrs.
  pose proof (run_fires_frame T API _ _ _ Hticks) as Hfrs.
  assert (Hs2 : tracked s2 ∧ same_page s1 s2).
  { apply last_Some_elem_of in Hl2. apply elem_of_cons in Hl2 as [->|Hin].
    - split; [exact Htr1|apply same_page_refl].
    - split; [by eapply Forall_forall in Htrs|by eapply Forall_forall in Hfrs]. }
  destruct Hs2 as [Htr2 (_&_&_&Hv2&Hsc2&_&_&Ha2&_)].
  rewrite run_cons in Hsettle.
  destruct (step T API (t1, Settle o) s2) as [[[] s3|]|] eqn:Hst; [|discriminate..].
  cbn in Hsettle. injection Hsettle as <-.
  rewrite last_cons, last_app in Hlast. cbn in Hlast. injection Hlast as ->.
  unfold step in Hst. destruct (negb _); [discriminate|].
  cbv beta iota zeta in Hst. change (awaiting (with_now t1 s2)) with (awaiting s2) in Hst.
  rewrite Ha2, Ha1 in Hst. injection Hst as Hst.
  set (s4 := with_awaiting 0 (with_now t1 s2)) in *.
  assert (Htr4 : tracked s4) by exact Htr2.
  assert (Hsc4 : scenes s4 = scenes s0) by (cbn; congruence).
  assert (Hv4 : videoUrl s4 = None) by (cbn; congruence).
  assert (Ha4 : awaiting s4 = 0%nat) by reflexivity.
  clearbody s4.
  pose proof (stop_tracked true s4 Htr4) as He1.
  pose proof (stop_tracked false s4 Htr4) as He0.
  rewrite stop_spec in He0, He1. cbn in He0, He1.
  destruct o as [filename download_url error|message];
    unfold render_settle, bind in Hst; rewrite stop_spec in Hst; cbn in Hst.
  - destruct (truthy filename) eqn:Htf; cbn in Hst; injection Hst as <-; cbn;
      rewrite ?Htf, ?Hv4; split_and!; first [assumption|reflexivity|exact He0|exact He1].
  - injection Hst as <-. cbn. rewrite Hv4.
    split_and!; first [assumption|reflexivity|exact He0|exact He1].
Qed.


(* The label on display names the stage the bar is in. *)
Lemma render_cycle_ends_settled_witness :
  (progress one_render_end, stage one_render_end,
   videoUrl one_render_end, status one_render_end) = render_result "" one_render_reply
  ∧ loading one_render_end = false ∧ rendering one_render_end = false
  ∧ timers one_render_end = ∅ ∧ awaiting one_render_end = 0%nat
  ∧ scenes one_render_end = scenes ready.
Proof.
  apply (render_cycle_ends_settled STAGES "" ready 0
           [(200, 1%positive); (290, 2%positive)] 5000 one_render_reply
           one_render_states one_render_end).
  - reflexivity.
  - reflexivity.
  - reflexivity.
  - vm_compute. discriminate.
  - vm_compute. reflexivity.
  - vm_compute. reflexivity.
Defined.




Lemma progressColor_green s :
  progressColor s = "from-green-500 to-emerald-400" ↔ progress s = 100.
Proof.
  unfold progressColor. destruct (Z.eqb_spec (progress s) 100) as [E|E]; [done|].
  split; [|done]. by repeat case_match.
Qed.

(** X5: with a table whose thresholds increase and end below 100, the
    bar of a run started with no timer pending is never green while the
    timers drive it; stopProgress(true) turns it green and
    stopProgress(false) does not. *)
Theorem bar_turns_green_only_on_success T API s0 el :
  increasing T → (2 ≤ length T)%nat → last T = Some el → pct el < 100 →
  timers s0 = ∅ →
  ∃ s1, startProgressAnimation T s0 = Return tt s1
        ∧ ∀ ticks sts s,
            run T API (fires ticks) s1 = Some sts →
            last (s1 :: sts) = Some s →
            Forall (λ x, progressColor x ≠ "from-green-500 to-emerald-400") (s1 :: sts)
            ∧ progressColor (state_of (stopProgress true s))
              = "from-green-500 to-emerald-400"
            ∧ progressColor (state_of (stopProgress false s))
              ≠ "from-green-500 to-emerald-400".
Proof.
  intros Hinc Hlen Hl H100 Ht.
  destruct (start_phase T s0 Ht) as (s1 & Hs1 & Hp & Hp0 & _).
  { intros ->. cbn in Hlen. lia. }
  exists s1. split; [exact Hs1|]. intros ticks sts s Hrun Hlast.
  destruct (run_fires_phase T API _ _ _ _ _ Hp Hrun) as (Hall & _).
  split_and!.
  - constructor; [rewrite progressColor_green; lia|].
    eapply Forall_impl; [exact Hall|]. intros x Hx.
    destruct (phase_le_last T _ x el Hinc Hlen Hl Hx) as [Hle _].
    rewrite progressColor_green. lia.
  - apply progressColor_green. by rewrite stop_spec.
  - rewrite progressColor_green, stop_spec. cbn. lia.
Qed.

Lemma bar_turns_green_only_on_success_witness :
  Forall (λ x, progressColor x ≠ "from-green-500 to-emerald-400")
    (started STAGES :: late_states).
Proof.
  destruct (bar_turns_green_only_on_success STAGES "" initial
              (mkStage 96 "Finalizing..." 3000)) as (s1 & Hs1 & Hrun).
  - unfold increasing. compute_done.
  - cbn. lia.
  - reflexivity.
  - cbn. lia.
  - reflexivity.
  - injection Hs1 as <-.
    destruct (Hrun late_ticks late_states (default initial (last late_states)))
      as (H & _); [vm_compute; reflexivity|vm_compute; reflexivity|].
    exact H.
Defined.

Ltac dot_cases :=
  unfold dot, dot_done, dot_active, dots_upto, thresholds, or_zero; cbn;
  repeat match goal with
         | |- context [?a <=? ?b] => destruct (Z.leb_spec a b); try lia
         | |- context [?a <? ?b] => destruct (Z.ltb_spec a b); try lia
         end; try reflexivity.

(** X6: for a bar between 0 and 100 the six stage dots read from left
    to right as green dots, then at most one pulsing yellow dot, then
    grey dots: there is a position k such that the dots before k are
    green, dot k is yellow and the dots after it are grey.  All six are
    green exactly when the bar is at 100. *)
Theorem one_dot_in_progress (s : State) :
  0 <= progress s <= 100 →
  ∃ k, (k ≤ 6)%nat ∧ (k = 6%nat ↔ progress s = 100)
       ∧ ∀ idx, (idx < 6)%nat → dot s idx = dots_upto k idx.
Proof.
  intros Hp.
  assert (Hc : progress s < 12 ∨ 12 <= progress s < 38 ∨ 38 <= progress s < 50
               ∨ 50 <= progress s < 62 ∨ 62 <= progress s < 85
               ∨ 85 <= progress s < 100 ∨ progress s = 100) by lia.
  destruct Hc as [H|[H|[H|[H|[H|[H|H]]]]]];
    [exists 0%nat|exists 1%nat|exists 2%nat|exists 3%nat|exists 4%nat|exists 5%nat
    |exists 6%nat];
    (split; [lia|]); (split; [lia|]); intros idx Hidx;
    do 6 (destruct idx as [|idx]; [dot_cases|]); lia.
Qed.

Lemma one_dot_in_progress_witness :
  ∃ k, (k ≤ 6)%nat ∧ (k = 6%nat ↔ progress (with_progress 40 initial) = 100)
       ∧ ∀ idx, (idx < 6)%nat → dot (with_progress 40 initial) idx = dots_upto k idx.
Proof. apply (one_dot_in_progress (with_progress 40 initial)). cbn. lia. Defined.

Section Lagfree.
Variable T : list StageEntry.
Variable API : string.

Lemma next_due_singleton s h cb due :
  timers s = {[h := (cb, due)]} → next_due s = Some (h, due).
Proof. intros E. unfold next_due. by rewrite E, map_to_list_singleton. Qed.

Lemma next_due_empty s : timers s = ∅ → next_due s = None.
Proof. intros E. unfold next_due. by rewrite E, map_to_list_empty. Qed.

Lemma phase_pending r b s :
  phase T r b s →
  (timers s = ∅ ∧ b = false) ∨ ∃ h cb due, timers s = {[h := (cb, due)]}.
Proof.
  intros Hp. destruct Hp; [right|right|right|left]; eauto.
Qed.

Lemma phase_rests r s :
  phase T r false s → timers s = ∅ →
  ∃ e, last T = Some e ∧ stage s = label e
       ∧ ((2 ≤ length T)%nat → progress s = pct e).
Proof.
  intros Hp Ht.
  inversion Hp as [
                  |s' h0 due e Ht' Href Hi He Hpr Hst
                  |s' h0 due c n st tl Ht' Href Hc Hn Htl Hlt Hdue' Hpr Hst
                  |s' e Ht' He Hi Hpr Hst]; subst.
  - rewrite Ht in Ht'. symmetry in Ht'. by apply map_non_empty_singleton in Ht'.
  - rewrite Ht in Ht'. symmetry in Ht'. by apply map_non_empty_singleton in Ht'.
  - exists e. rewrite last_lookup.
    replace (pred (length T)) with (stageIdx s r) by lia.
    split_and!; [done|done|]. intros Hlen.
    destruct (stageIdx s r); [lia|done].
Qed.

Lemma phase_with_now r s t :
  phase T r false s → timers s = ∅ → phase T r false (with_now t s).
Proof.
  intros Hp Ht.
  inversion Hp as [
                  |s' h0 due e Ht' Href Hi He Hpr Hst
                  |s' h0 due c n st tl Ht' Href Hc Hn Htl Hlt Hdue' Hpr Hst
                  |s' e Ht' He Hi Hpr Hst]; subst.
  - rewrite Ht in Ht'. symmetry in Ht'. by apply map_non_empty_singleton in Ht'.
  - rewrite Ht in Ht'. symmetry in Ht'. by apply map_non_empty_singleton in Ht'.
  - by apply (Finished T r _ e).
Qed.

Lemma advance_comes_to_rest r k : ∀ b s,
  phase T r b s → (potential T r s ≤ k)%nat →
  ∃ Tend, ∀ T' n, Tend <= T' → (k ≤ n)%nat →
    ∃ s', advance T API n T' s = Some s' ∧ timers s' = ∅ ∧ now s' = T'
          ∧ phase T r false s'.
Proof.
  induction k as [|k IH]; intros b s Hp Hk.
  - destruct (phase_pending r b s Hp) as [[Ht ->]|(h & cb & due & Ht)].
    + exists 0. intros T' n _ _. exists (with_now T' s).
      split_and!; [|done|done|by apply phase_with_now].
      destruct n; cbn; by rewrite (next_due_empty s Ht).
    + exfalso.
      assert (Hen : ∃ o, step T API (Z.max due (now s), Fire h) s = Some o).
      { unfold step. destruct (Z.leb_spec (now s) (Z.max due (now s))); [|lia]. cbn.
        rewrite Ht, lookup_singleton_eq.
        destruct (Z.leb_spec due (Z.max due (now s))); [|lia]. by eexists. }
      destruct Hen as [o Ho].
      destruct (fire_phase T API _ _ _ _ _ _ Hp Ho) as (s' & _ & _ & _ & _ & Hpot & _).
      lia.
  - destruct (phase_pending r b s Hp) as [[Ht ->]|(h & cb & due & Ht)].
    + exists 0. intros T' n _ _. exists (with_now T' s).
      split_and!; [|done|done|by apply phase_with_now].
      destruct n; cbn; by rewrite (next_due_empty s Ht).
    + assert (Hen : ∃ o, step T API (Z.max due (now s), Fire h) s = Some o).
      { unfold step. destruct (Z.leb_spec (now s) (Z.max due (now s))); [|lia]. cbn.
        rewrite Ht, lookup_singleton_eq.
        destruct (Z.leb_spec due (Z.max due (now s))); [|lia]. by eexists. }
      destruct Hen as [o Ho].
      destruct (fire_phase T API _ _ _ _ _ _ Hp Ho) as (s1 & -> & Hp1 & _ & _ & Hpot & _).
      destruct (IH false s1 Hp1) as [Tend1 Hrest]; [lia|].
      exists (Z.max due Tend1). intros T' n HT' Hn.
      destruct n as [|n]; [lia|].
      destruct (Hrest T' n) as (s' & Hadv & Hs'); [lia..|].
      exists s'. split; [|exact Hs'].
      cbn [advance]. rewrite (next_due_singleton s h cb due Ht).
      destruct (Z.ltb_spec T' due); [lia|]. by rewrite Ho.
Qed.

End Lagfree.

(** X7: in a browser without lag a run started with no timer pending on
    a non-empty table comes to rest: there is a time after which letting
    the clock advance, with room for as many timer callbacks as the
    table needs, returns a state with no timer pending that shows the
    label of the last entry and, for a table of two or more entries,
    the last threshold. *)
Theorem lag_free_run_comes_to_rest T API s0 :
  T ≠ [] → timers s0 = ∅ →
  ∃ s1 Tend,
    startProgressAnimation T s0 = Return tt s1
    ∧ ∀ T' n, Tend <= T' → (fires_needed T ≤ n)%nat →
        ∃ s' e, advance T API n T' s1 = Some s'
                ∧ timers s' = ∅ ∧ now s' = T'
                ∧ last T = Some e ∧ stage s' = label e
                ∧ ((2 ≤ length T)%nat → progress s' = pct e).
Proof.
  intros HT Ht.
  destruct (start_phase T s0 Ht HT) as (s1 & Hs1 & Hp & _ & _ & Hpot).
  destruct (advance_comes_to_rest T API _ (fires_needed T) _ _ Hp) as [Tend Hrest]; [lia|].
  exists s1, Tend. split; [exact Hs1|]. intros T' n HT' Hn.
  destruct (Hrest T' n HT' Hn) as (s' & Hadv & Hempty & Hnow & Hp').
  destruct (phase_rests T _ _ Hp' Hempty) as (e & Hl & Hst & Hpr).
  by exists s', e.
Qed.

Lemma lag_free_run_comes_to_rest_witness :
  ∃ s1 Tend,
    startProgressAnimation STAGES initial = Return tt s1
    ∧ ∀ T' n, Tend <= T' → (fires_needed STAGES ≤ n)%nat →
        ∃ s' e, advance STAGES "" n T' s1 = Some s'
                ∧ timers s' = ∅ ∧ now s' = T'
                ∧ last STAGES = Some e ∧ stage s' = label e
                ∧ ((2 ≤ length STAGES)%nat → progress s' = pct e).
Proof.
  apply (lag_free_run_comes_to_rest STAGES "" initial).
  - vm_compute. discriminate.
  - reflexivity.
Defined.

(* The setInterval bar: after n intervals the index is min n (length T) and
   the bar shows the entry before it. *)
Lemma legacy_bar_after (T : list Legacy.Stg) (n : nat) :
  ∀ b, (Legacy.i b ≤ length T)%nat →
  last (b :: Legacy.intervals T n b) = Some (Nat.iter n (Legacy.on_interval T) b).
Proof.
  induction n as [|n IH]; intros b Hb; [done|].
  cbn [Legacy.intervals]. rewrite last_cons_cons, Nat.iter_succ_r.
  apply IH. unfold Legacy.on_interval.
  destruct (Nat.ltb_spec (Legacy.i b) (length T)); [|done].
  destruct (T !! Legacy.i b); cbn; lia.
Qed.

Lemma legacy_iter (T : list Legacy.Stg) (n : nat) :
  let b := Nat.iter n (Legacy.on_interval T) Legacy.render_begin in
  Legacy.i b = (n `min` length T)%nat
  ∧ match Legacy.i b with
    | O => b = Legacy.render_begin
    | S k => ∃ e, T !! k = Some e ∧ Legacy.bar_progress b = Legacy.stg_progress e
                  ∧ Legacy.bar_stage b = Legacy.stg_stage e
    end.
Proof.
  induction n as [|n IH]; cbn zeta; [by split|].
  cbn zeta in IH. rewrite Nat.iter_succ. destruct IH as [Hi Hb].
  set (b := Nat.iter n (Legacy.on_interval T) Legacy.render_begin) in *.
  unfold Legacy.on_interval.
  destruct (Nat.ltb_spec (Legacy.i b) (length T)) as [Hlt|Hge].
  - destruct (lookup_lt_is_Some_2 T _ Hlt) as [e He]. rewrite He.
    cbn [Legacy.i Legacy.bar_progress Legacy.bar_stage].
    split; [lia|]. by exists e.
  - split; [lia|]. done.
Qed.

(** X8: the setInterval bar of the earlier component walks its table
    one entry per interval: once as many intervals have passed as the
    table has entries, the bar shows the progress and the stage of the
    last entry, and further intervals leave it as it is. *)
Theorem legacy_bar_walks_the_table (T : list Legacy.Stg) (n : nat) (e : Legacy.Stg) :
  last T = Some e → (length T ≤ n)%nat →
  ∃ b, last (Legacy.render_begin :: Legacy.intervals T n Legacy.render_begin) = Some b
       ∧ Legacy.bar_progress b = Legacy.stg_progress e
       ∧ Legacy.bar_stage b = Legacy.stg_stage e
       ∧ Legacy.on_interval T b = b.
Proof.
  intros Hl Hn. eexists. split; [apply legacy_bar_after; cbn; lia|].
  destruct (legacy_iter T n) as [Hi Hb]. cbn zeta in Hi, Hb.
  set (b := Nat.iter n (Legacy.on_interval T) Legacy.render_begin) in *.
  rewrite last_lookup in Hl.
  assert (Hlen : length T ≠ 0%nat).
  { intros E. rewrite E in Hl. destruct T; done. }
  rewrite Hi in Hb. replace (n `min` length T)%nat with (S (pred (length T))) in Hb by lia.
  destruct Hb as (e' & He' & Hp & Hs). simplify_eq.
  split_and!; [done|done|]. unfold Legacy.on_interval.
  destruct (Nat.ltb_spec (Legacy.i b) (length T)); [lia|done].
Qed.


Lemma legacy_bar_walks_the_table_witness :
  ∃ b, last (Legacy.render_begin :: Legacy.intervals Legacy.stgs 8 Legacy.render_begin)
       = Some b
       ∧ Legacy.bar_progress b = 95
       ∧ Legacy.bar_stage b = "Finalizing..."
       ∧ Legacy.on_interval Legacy.stgs b = b.
Proof.
  apply (legacy_bar_walks_the_table Legacy.stgs 8 (Legacy.mkStg 95 "Finalizing...")).
  - reflexivity.
  - cbn. lia.
Defined.

Lemma legacy_interval_nondecreasing_witness :
  nondecreasing (Legacy.bar_progress <$>
                   Legacy.render_begin :: Legacy.intervals Legacy.stgs 8 Legacy.render_begin).
Proof.
  apply (legacy_interval_nondecreasing Legacy.stgs 8).
  - compute_done.
  - intros e He. vm_compute in He. injection He as <-. vm_compute. discriminate.
Defined.

(** X10: with the Render button disabled while loading, a page that
    starts with no timer pending and no request waiting keeps at most
    one render in flight whatever is clicked and whenever timers and
    replies arrive: never more than one timer pending, the one
    progressTimerRef holds, never more than one request waiting, and
    neither of them once loading is off. *)
Theorem render_button_keeps_one_render T API (s : State) (evs : list event)
    (sts : list State) :
  timers s = ∅ → awaiting s = 0%nat →
  Forall (λ ev : event, ui_action ev.2 = true) evs →
  run T API evs s = Some sts →
  Forall (λ s', (size (timers s') ≤ 1)%nat ∧ (awaiting s' ≤ 1)%nat
                ∧ tracked s'
                ∧ (loading s' = false → timers s' = ∅ ∧ awaiting s' = 0%nat)) sts.
Proof.
  intros Ht Ha Hev Hrun.
  assert (Hi : ui_inv s).
  { split_and!; [by apply tracked_empty|rewrite Ht, map_size_empty; lia|lia|done]. }
  eapply Forall_impl; [exact (run_ui T API evs s sts Hi Hev Hrun)|].
  intros s' (? & ? & ? & ?). split_and!; assumption.
Qed.

Lemma render_button_keeps_one_render_witness :
  Forall (λ s', (size (timers s') ≤ 1)%nat ∧ (awaiting s' ≤ 1)%nat) impatient_states.
Proof.
  eapply Forall_impl.
  - apply (render_button_keeps_one_render STAGES "" ready impatient impatient_states).
    + reflexivity.
    + reflexivity.
    + unfold impatient. repeat constructor.
    + vm_compute. reflexivity.
  - intros s' (H1 & H2 & _). split; assumption.
Defined.

Lemma filter_from_delete {A} (idx : nat) (l : list A) : ∀ k,
  filter_from (λ _ i, negb (i =? idx)%nat) k l
  = if (idx <? k)%nat then l else delete (idx - k)%nat l.
Proof.
  induction l as [|x l IH]; intros k; cbn [filter_from].
  - by destruct (Nat.ltb_spec idx k).
  - rewrite IH. destruct (Nat.eqb_spec k idx) as [->|Hne]; cbn [negb].
    + rewrite Nat.sub_diag. destruct (Nat.ltb_spec idx idx); [lia|].
      destruct (Nat.ltb_spec idx (S idx)); [done|lia].
    + destruct (Nat.ltb_spec idx k), (Nat.ltb_spec idx (S k)); try lia; [done|].
      replace (idx - k)%nat with (S (idx - S k)) by lia. done.
Qed.

Lemma del_scenes idx s :
  ∃ s', del idx s = Return tt s' ∧ scenes s' = delete idx (scenes s)
        ∧ status s' = "🗑️ Scene " +:+ pretty (idx + 1)%nat +:+ " deleted"
        ∧ draggedIdx s' = draggedIdx s.
Proof.
  eexists. split; [done|]. cbn. split_and!; [|done..].
  rewrite filter_from_delete. cbn. by rewrite Nat.sub_0_r.
Qed.

(** X11: del(idx) always returns; it removes the scene at position idx
    and keeps the others in order.  When idx is past the end the list
    is unchanged, and the status line reports a deletion all the same. *)
Theorem del_removes_the_scene_at_idx (idx : nat) (s : State) :
  ∃ s', del idx s = Return tt s'
        ∧ scenes s' = delete idx (scenes s)
        ∧ ((length (scenes s) ≤ idx)%nat → scenes s' = scenes s)
        ∧ status s' = "🗑️ Scene " +:+ pretty (idx + 1)%nat +:+ " deleted".
Proof.
  destruct (del_scenes idx s) as (s' & Hs & Hsc & Hst & _).
  exists s'. split_and!; [done..| |done].
  intros Hge. rewrite Hsc, delete_take_drop.
  rewrite take_ge, drop_ge by lia. by rewrite app_nil_r.
Qed.

Lemma add_scenes s :
  ∃ s', add s = Return tt s'
        ∧ scenes s' = scenes s ++ [Some (mkScene (scene_id (S (length (scenes s))))
                                                 "Enter text..." "" 5 "" "")].
Proof. eexists. split; [done|]. cbn. by rewrite Nat.add_1_r. Qed.

(** X12: deleting the position a scene was just added at undoes the
    add: add() followed by del() of the old length leaves the scenes as
    they were. *)
Theorem del_undoes_add (s : State) :
  ∃ s', (add ;; del (length (scenes s))) s = Return tt s' ∧ scenes s' = scenes s.
Proof.
  unfold bind at 1. destruct (add_scenes s) as (s1 & -> & H1).
  destruct (del_scenes (length (scenes s)) s1) as (s2 & -> & H2 & _).
  exists s2. split; [done|]. rewrite H2, H1.
  rewrite delete_take_drop, take_app_length.
  rewrite drop_app_ge by lia. rewrite drop_ge by (cbn; lia). by rewrite app_nil_r.
Qed.

(** X13: dup(idx) on a scene puts a copy right after it, equal to the
    original except for the id scene_<length + 1>, and makes the list
    one longer; deleting the copy gives back the scenes as they were. *)
Theorem del_undoes_dup (idx : nat) (s : State) (sc : Scene) :
  scenes s !! idx = Some (Some sc) →
  ∃ s1 s2,
    dup idx s = Some (Return tt s1)
    ∧ length (scenes s1) = S (length (scenes s))
    ∧ scenes s1 !! idx = Some (Some sc)
    ∧ scenes s1 !! S idx = Some (Some (with_id (scene_id (S (length (scenes s)))) sc))
    ∧ del (S idx) s1 = Return tt s2
    ∧ scenes s2 = scenes s.
Proof.
  intros Hsc. pose proof (lookup_lt_Some _ _ _ Hsc) as Hlt.
  unfold dup. rewrite Hsc. cbn zeta.
  set (o := (setScenes _ ;; setStatus _) s).
  destruct (del_scenes (S idx) (state_of o)) as (s2 & Hs2 & Hsc2 & _).
  exists (state_of o), s2. split; [done|]. split_and!; [| | |exact Hs2|rewrite Hsc2];
    subst o; cbn; unfold splice; cbn [app]; rewrite Nat.add_0_r, !Nat.add_1_r;
    assert (Hlen : length (take (S idx) (scenes s)) = S idx) by (rewrite length_take; lia).
  - rewrite length_app, Hlen. cbn. rewrite length_drop. lia.
  - rewrite lookup_app_l by lia. by rewrite lookup_take_lt by lia.
  - rewrite lookup_app_r by lia. by rewrite Hlen, Nat.sub_diag.
  - rewrite delete_take_drop.
    rewrite take_app_length' by done.
    rewrite drop_app_ge by lia. rewrite Hlen.
    replace (S (S idx) - S idx)%nat with 1%nat by lia. cbn. rewrite drop_0.
    apply take_drop.
Qed.

Lemma del_undoes_dup_witness :
  ∃ s1 s2,
    dup 1 ready = Some (Return tt s1)
    ∧ length (scenes s1) = 4%nat
    ∧ scenes s1 !! 2%nat = Some (Some (mkScene (scene_id 4) "Body" "" 5 "" ""))
    ∧ del 2 s1 = Return tt s2
    ∧ scenes s2 = three_scenes.
Proof.
  destruct (del_undoes_dup 1 ready (mkScene "scene_2" "Body" "" 5 "" ""))
    as (s1 & s2 & H1 & H2 & _ & H4 & H5 & H6).
  - reflexivity.
  - exists s1, s2. split_and!; assumption.
Defined.

Lemma scene_id_inj : Inj (=) (=) scene_id.
Proof.
  intros a b H. unfold scene_id in H.
  apply (inj (String.app "scene_")) in H. by apply (inj pretty) in H.
Qed.

Lemma numbered_lookup l i :
  numbered l → (i < length l)%nat → ids l !! i = Some (Some (scene_id (S i))).
Proof.
  intros Hn Hi. rewrite Hn, list_lookup_fmap, lookup_seq_lt by done. done.
Qed.

Lemma numbered_ids l : numbered l → NoDup (ids l).
Proof.
  intros Hn. rewrite Hn. apply NoDup_fmap_2; [|apply NoDup_seq].
  intros i j E. apply (inj Some) in E. apply scene_id_inj in E. lia.
Qed.

Lemma ids_length l : length (ids l) = length l.
Proof. unfold ids. by rewrite length_fmap. Qed.

Lemma numbered_add s :
  numbered (scenes s) →
  ∃ s', add s = Return tt s' ∧ numbered (scenes s')
        ∧ length (scenes s') = S (length (scenes s)).
Proof.
  intros Hn. destruct (add_scenes s) as (s' & Hs & Hsc). exists s'.
  split; [done|]. rewrite Hsc. split; [|rewrite length_app; cbn; lia].
  unfold numbered in *. rewrite length_app. cbn [length].
  rewrite Nat.add_1_r, seq_S, fmap_app. unfold ids in *.
  rewrite fmap_app, Hn. done.
Qed.

Lemma times_add n : ∀ s,
  numbered (scenes s) →
  ∃ s', times n add s = Return tt s' ∧ numbered (scenes s')
        ∧ length (scenes s') = (n + length (scenes s))%nat.
Proof.
  induction n as [|n IH]; intros s Hn.
  - exists s. by split.
  - destruct (numbered_add s Hn) as (s1 & Hs1 & Hn1 & Hl1).
    destruct (IH s1 Hn1) as (s' & Hs' & Hn' & Hl').
    exists s'. split_and!; [|done|lia].
    cbn [times]. unfold bind. by rewrite Hs1.
Qed.

(** X14: starting from an empty list, n calls of add() return with n
    scenes whose ids are scene_1, ..., scene_n in order, so no two cards
    share an id. *)
Theorem adds_give_distinct_ids (n : nat) (s : State) :
  scenes s = [] →
  ∃ s', times n add s = Return tt s'
        ∧ length (scenes s') = n
        ∧ NoDup (ids (scenes s'))
        ∧ ∀ i, (i < n)%nat → ids (scenes s') !! i = Some (Some (scene_id (S i))).
Proof.
  intros He.
  destruct (times_add n s) as (s' & Hs & Hn & Hl).
  { by rewrite He. }
  rewrite He in Hl. cbn in Hl. rewrite Nat.add_0_r in Hl.
  exists s'. split_and!; [done|done|by apply numbered_ids|].
  intros i Hi. apply numbered_lookup; [done|lia].
Qed.

Lemma adds_give_distinct_ids_witness :
  ∃ s', times 3 add initial = Return tt s'
        ∧ length (scenes s') = 3%nat
        ∧ NoDup (ids (scenes s')).
Proof.
  destruct (adds_give_distinct_ids 3 initial) as (s' & H1 & H2 & H3 & _).
  - reflexivity.
  - exists s'. split_and!; assumption.
Defined.

(** X15: on a list of at least two scenes with the ids scene_1, ...,
    scene_n, deleting any scene but the last and then adding one gives
    the new scene the id scene_n, which the scene before it already has:
    the list is as long as before and its last two ids are equal. *)
Theorem add_after_del_repeats_an_id (idx : nat) (s : State) :
  numbered (scenes s) → (S idx < length (scenes s))%nat →
  ∃ s' k,
    (del idx ;; add) s = Return tt s'
    ∧ length (scenes s') = length (scenes s)
    ∧ ids (scenes s') !! k = Some (Some (scene_id (length (scenes s))))
    ∧ ids (scenes s') !! S k = Some (Some (scene_id (length (scenes s))))
    ∧ ¬ NoDup (ids (scenes s')).
Proof.
  intros Hn Hlt. unfold bind at 1.
  destruct (del_scenes idx s) as (s1 & -> & H1 & _).
  destruct (add_scenes s1) as (s2 & -> & H2).
  assert (Hlen1 : length (scenes s1) = pred (length (scenes s))).
  { rewrite H1, length_delete; [lia|]. apply lookup_lt_is_Some. lia. }
  set (n := length (scenes s)) in *.
  assert (Hids : ids (scenes s2)
                 = delete idx (ids (scenes s)) ++ [Some (scene_id n)]).
  { rewrite H2, H1. unfold ids. rewrite fmap_app, list_fmap_delete. cbn.
    do 3 f_equal. rewrite <- H1, Hlen1. f_equal. lia. }
  assert (Hdl : length (delete idx (ids (scenes s))) = pred n).
  { rewrite length_delete, ids_length; [subst n; lia|].
    apply lookup_lt_is_Some. rewrite ids_length. lia. }
  assert (Ha : ids (scenes s2) !! (n - 2)%nat = Some (Some (scene_id n))).
  { rewrite Hids, lookup_app_l by lia.
    rewrite list_lookup_delete_ge by lia.
    rewrite (numbered_lookup _ _ Hn) by lia. do 3 f_equal. lia. }
  assert (Hb : ids (scenes s2) !! S (n - 2)%nat = Some (Some (scene_id n))).
  { rewrite Hids, lookup_app_r by lia.
    by replace (S (n - 2) - length (delete idx (ids (scenes s))))%nat with 0%nat by lia. }
  exists s2, (n - 2)%nat. split_and!; [done| |done|done|].
  - rewrite H2, length_app. cbn. lia.
  - intros Hnd. pose proof (NoDup_lookup _ _ _ _ Hnd Ha Hb). lia.
Qed.

Lemma add_after_del_repeats_an_id_witness :
  ∃ s', (del 0 ;; add) ready = Return tt s'
        ∧ length (scenes s') = 3%nat
        ∧ ¬ NoDup (ids (scenes s')).
Proof.
  destruct (add_after_del_repeats_an_id 0 ready) as (s' & k & H1 & H2 & _ & _ & H5).
  - vm_compute. reflexivity.
  - cbn. lia.
  - exists s'. split_and!; assumption.
Defined.

(* Drag there and back *)

Lemma reorder_back {A} (undefined : A) (d idx : nat) (l : list A) :
  (d < length l)%nat → (idx < length l)%nat →
  reorder undefined idx d (reorder undefined d idx l) = l.
Proof.
  intros Hd Hidx.
  destruct (lookup_lt_is_Some_2 l d Hd) as [x Hx].
  destruct (reorder_facts undefined d idx l x Hx Hidx) as (_ & Hlen & Hat & Hdel).
  rewrite (reorder_spec undefined idx d _ x Hat) by lia.
  rewrite Hdel, !delete_take_drop.
  rewrite take_app_length' by (rewrite length_take; lia).
  rewrite drop_app_ge by (rewrite length_take; lia).
  rewrite length_take, Nat.min_l by lia. rewrite Nat.sub_diag, drop_0.
  by apply take_drop_middle.
Qed.

(** X16: dragging a card over another and back over its old place puts
    every scene where it was: for positions inside the list,
    dragStart(d), dragOver(idx), dragOver(d), dragEnd() return with the
    scenes unchanged and nothing dragged. *)
Theorem drag_there_and_back (d idx : nat) (s : State) :
  (d < length (scenes s))%nat → (idx < length (scenes s))%nat →
  ∃ s', (dragStart d ;; dragOver idx ;; dragOver d ;; dragEnd) s = Return tt s'
        ∧ scenes s' = scenes s ∧ draggedIdx s' = None.
Proof.
  intros Hd Hidx. unfold bind, dragStart, dragOver, dragEnd, setDraggedIdx, setScenes,
    modify, get. cbn.
  destruct (Nat.eqb_spec d idx) as [->|Hne]; cbn.
  - rewrite Nat.eqb_refl. cbn. eexists. by split.
  - destruct (Nat.eqb_spec idx d) as [->|_]; [done|]. cbn.
    eexists. split; [done|]. cbn. split; [|done]. by apply reorder_back.
Qed.

Lemma drag_there_and_back_witness :
  ∃ s', (dragStart 0 ;; dragOver 2 ;; dragOver 0 ;; dragEnd) ready = Return tt s'
        ∧ scenes s' = three_scenes ∧ draggedIdx s' = None.
Proof.
  apply (drag_there_and_back 0 2 ready).
  - cbn. lia.
  - cbn. lia.
Defined.

(* Totals *)

Section Totals.
Context {A : Type}.
Variable f : A → Scene → A.
Hypothesis f_comm : ∀ a x y, f (f a x) y = f (f a y) x.




Lemma fold_thrown l : ∀ (m : M A) s,
  value (m s) = None → value (foldl (reduce_step f) m l s) = None.
Proof.
  induction l as [|o l IH]; intros m s E; [done|].
  cbn. apply IH. unfold reduce_step, bind. by destruct (m s).
Qed.

Lemma fold_undefined l : ∀ (m : M A) s,
  None ∈ l → value (foldl (reduce_step f) m l s) = None.
Proof.
  induction l as [|o l IH]; intros m s Hin; [by apply elem_of_nil in Hin|].
  apply elem_of_cons in Hin as [<-|Hin]; cbn.
  - apply fold_thrown. unfold reduce_step, bind. by destruct (m s).
  - by apply IH.
Qed.

Lemma scene_fold_undefined init s :
  None ∈ scenes s → value (scene_fold f init s) = None.
Proof. intros Hin. unfold scene_fold, bind, get. by apply fold_undefined. Qed.

End Totals.



(** X18: dragOver does not check that the dragged index is inside the
    list.  When it is past the end, nothing is removed and undefined is
    inserted at the target position, so the list grows by one, and the
    totals of the summary panel throw on the next render. *)
Theorem drag_of_a_missing_card_inserts_undefined (d idx : nat) (s : State) :
  draggedIdx s = Some d → (length (scenes s) ≤ d)%nat → d ≠ idx →
  ∃ s', dragOver idx s = Return tt s'
        ∧ scenes s' = take idx (scenes s) ++ None :: drop idx (scenes s)
        ∧ length (scenes s') = S (length (scenes s))
        ∧ value (totalDur s') = None
        ∧ value (totalWords s') = None
        ∧ value (withImages s') = None.
Proof.
  intros Hdr Hd Hne. unfold dragOver, bind, get. rewrite Hdr.
  destruct (Nat.eqb_spec d idx) as [|_]; [done|].
  eexists. split; [done|]. cbn [scenes with_scenes with_draggedIdx state_of].
  assert (E : reorder None d idx (scenes s)
              = take idx (scenes s) ++ None :: drop idx (scenes s)).
  { unfold reorder. rewrite splice_delete, delete_take_drop.
    rewrite take_ge, drop_ge by lia. rewrite app_nil_r.
    rewrite nth_overflow by lia. unfold splice. by rewrite Nat.add_0_r. }
  assert (Hin : None ∈ reorder None d idx (scenes s)).
  { rewrite E. apply elem_of_app. right. by left. }
  split_and!; [done| |by apply scene_fold_undefined..].
  cbn. rewrite E, length_app. cbn. rewrite length_take, length_drop. lia.
Qed.


Lemma drag_of_a_missing_card_inserts_undefined_witness :
  ∃ s', dragOver 1 dragging_missing = Return tt s'
        ∧ length (scenes s') = 4%nat
        ∧ scenes s' !! 1%nat = Some None
        ∧ value (totalDur s') = None.
Proof.
  destruct (drag_of_a_missing_card_inserts_undefined 5 1 dragging_missing)
    as (s' & H1 & H2 & H3 & H4 & _).
  - reflexivity.
  - cbn. lia.
  - lia.
  - exists s'. split_and!; [assumption|assumption| |assumption].
    rewrite H2. reflexivity.
Defined.









Lemma voices_begin_inv p :
  Voices.settled_or_one p → Voices.settled_or_one (Voices.loadVoices_begin p).
Proof.
  intros Hg. unfold Voices.loadVoices_begin.
  destruct (Voices.voicesLoading p || Voices.voicesLoaded p) eqn:E; [exact Hg|].
  apply orb_false_elim in E as [E1 E2]. destruct Hg as [Hr Hl]. rewrite E1 in Hr.
  split; cbn; [by rewrite Hr|by rewrite E2].
Qed.

Lemma voices_step_inv ev p p' :
  Voices.settled_or_one p → Voices.step ev p = Some p' → Voices.settled_or_one p'.
Proof.
  intros Hg Hs. destruct ev as [enabled|r]; cbn in Hs.
  - injection Hs as <-. unfold Voices.toggleElevenLabs.
    destruct (_ && _ && _); [apply voices_begin_inv|]; exact Hg.
  - destruct Hg as [Hr Hl]. destruct (Voices.requests p) as [|k] eqn:E; [done|].
    injection Hs as <-.
    destruct (Voices.voicesLoading p); [|done]. injection Hr as ->.
    destruct r as [[] [vs|] error|message]; by split.
Qed.

Lemma voices_run_inv evs : ∀ p sts,
  Voices.settled_or_one p → Voices.run evs p = Some sts → Forall Voices.settled_or_one sts.
Proof.
  induction evs as [|ev evs IH]; intros p sts Hg Hr; cbn in Hr.
  - by injection Hr as <-.
  - destruct (Voices.step ev p) as [p'|] eqn:Hs; [|done].
    destruct (Voices.run evs p') as [sts'|] eqn:Hr'; [|done].
    injection Hr as <-. pose proof (voices_step_inv _ _ _ Hg Hs).
    constructor; [done|]. by eapply IH.
Qed.

(** X20: whatever the switch and the server do after the page is
    mounted, at most one voices request is waiting at any time, one is
    waiting exactly while voicesLoading is set, and none once the
    voices are loaded. *)
Theorem one_voices_request_at_a_time (evs : list Voices.event) (sts : list Voices.Page) :
  Voices.run evs Voices.mounted = Some sts →
  Forall (λ p, (Voices.requests p ≤ 1)%nat
               ∧ (Voices.requests p = 1%nat ↔ Voices.voicesLoading p = true)
               ∧ (Voices.voicesLoaded p = true → Voices.requests p = 0%nat)) sts.
Proof.
  intros Hr. eapply Forall_impl.
  { apply (voices_run_inv evs Voices.mounted); [by split|exact Hr]. }
  intros p [Hq Hl]. cbn beta.
  destruct (Voices.voicesLoading p), (Voices.voicesLoaded p); rewrite Hq;
    split_and!; try done; try lia; intros; done.
Qed.

Lemma one_voices_request_at_a_time_witness :
  Forall (λ p, (Voices.requests p ≤ 1)%nat) switching_pages.
Proof.
  eapply Forall_impl.
  - apply (one_voices_request_at_a_time switching switching_pages).
    vm_compute. reflexivity.
  - intros p (H & _). exact H.
Defined.

(** X21: once the voices are loaded and no request is waiting, the
    switch never fetches them again: after any further events the list
    of voices, the loaded flag, the status line and the rest of the
    page are what they were, and no request is waiting. *)
Theorem voices_are_loaded_once (evs : list Voices.event) (p : Voices.Page)
    (sts : list Voices.Page) :
  Voices.voicesLoaded p = true → Voices.requests p = 0%nat →
  Voices.run evs p = Some sts →
  Forall (λ p', Voices.voices p' = Voices.voices p
                ∧ Voices.voicesLoaded p' = true
                ∧ Voices.requests p' = 0%nat
                ∧ Voices.page p' = Voices.page p) sts.
Proof.
  revert p sts. induction evs as [|ev evs IH]; intros p sts Hl Hq Hr; cbn in Hr.
  - by injection Hr as <-.
  - destruct (Voices.step ev p) as [p'|] eqn:Hs; [|done].
    destruct (Voices.run evs p') as [sts'|] eqn:Hr'; [|done].
    injection Hr as <-.
    assert (Hp' : Voices.voices p' = Voices.voices p ∧ Voices.voicesLoaded p' = true
                  ∧ Voices.requests p' = 0%nat ∧ Voices.page p' = Voices.page p).
    { destruct ev as [enabled|r]; cbn in Hs.
      - injection Hs as <-. unfold Voices.toggleElevenLabs. rewrite Hl.
        rewrite andb_false_r. cbn. done.
      - by rewrite Hq in Hs. }
    destruct Hp' as (Hv & Hl' & Hq' & Hpg). constructor; [done|].
    eapply Forall_impl; [by apply (IH p' sts')|].
    intros p'' (? & ? & ? & ?). split_and!; congruence.
Qed.

Lemma voices_are_loaded_once_witness :
  Forall (λ p', Voices.voices p' = [alice] ∧ Voices.requests p' = 0%nat) switched_again.
Proof.
  eapply Forall_impl.
  - apply (voices_are_loaded_once [Voices.Toggle false; Voices.Toggle true]
             loaded switched_again).
    + reflexivity.
    + reflexivity.
    + vm_compute. reflexivity.
  - intros p' (H1 & _ & H3 & _). split; assumption.
Defined.

(** X22: a reply that does not carry a list of voices with success,
    or an exception on the way, leaves the voices as they were and not
    loaded, with no request waiting; the next switch-on sends a new
    request. *)
Theorem failed_voices_load_is_retried (r : Voices.reply) (p : Voices.Page) :
  Voices.requests p = 1%nat → Voices.succeeds r = false →
  ∃ p1 p2,
    Voices.step (Voices.Reply r) p = Some p1
    ∧ Voices.voicesLoaded p1 = false ∧ Voices.requests p1 = 0%nat
    ∧ Voices.voices p1 = Voices.voices p
    ∧ Voices.step (Voices.Toggle true) p1 = Some p2
    ∧ Voices.voicesLoading p2 = true ∧ Voices.requests p2 = 1%nat.
Proof.
  intros H1 Hf. cbn. rewrite H1.
  eexists _, _. split; [done|].
  destruct r as [[] [vs|] error|message]; try done; cbn; split_and!; done.
Qed.

Lemma failed_voices_load_is_retried_witness :
  ∃ p1 p2,
    Voices.step (Voices.Reply (Voices.Failed "Failed to fetch")) asked = Some p1
    ∧ Voices.voicesLoaded p1 = false
    ∧ Voices.step (Voices.Toggle true) p1 = Some p2
    ∧ Voices.requests p2 = 1%nat.
Proof.
  destruct (failed_voices_load_is_retried (Voices.Failed "Failed to fetch") asked)
    as (p1 & p2 & H1 & H2 & _ & _ & H5 & _ & H7).
  - reflexivity.
  - reflexivity.
  - exists p1, p2. split_and!; assumption.
Defined.
